(** * fix_materials.py: the attribute stripper

    A shallow embedding of [fix_materials.py] and the properties of its
    text transform.  The script reads [index.html], applies fourteen
    [re.sub] calls in a fixed order and writes the result back.

    Text is a Python [str]: a sequence of Unicode code points.  The
    fourteen patterns use literal characters, one greedy character class
    followed by [+], and nothing else, so the embedding has a regex type
    with exactly these two atoms and a backtracking matcher for it. *)

From Stdlib Require Import List Arith NArith Bool Lia String Ascii Permutation.
Import ListNotations.

Local Open Scope N_scope.

(** ** Text *)

Definition char := N.
Definition text := list char.

(** An ASCII literal of the source as text (every byte below 128 is its
    own code point). *)
Definition str (s : string) : text :=
  List.map N_of_ascii (list_ascii_of_string s).

Definition SPACE : char := 32.
Definition QUOTE : char := 34.
Definition SEMI : char := 59.
Definition NEWLINE : char := 10.

(** ** Regular expressions of the script *)

Inductive atom : Type :=
| Lit (c : char)
| Plus (cls : char -> bool).

Definition regex := list atom.

(** A literal run, [r'; metalness: '] and the like. *)
Definition lits (s : text) : regex := List.map Lit s.

(** [[0-9.]] *)
Definition digits_dot (c : char) : bool :=
  ((48 <=? c) && (c <=? 57)) || (c =? 46).

(** [[0-9a-fA-F]] *)
Definition hex_digit (c : char) : bool :=
  ((48 <=? c) && (c <=? 57)) || ((97 <=? c) && (c <=? 102))
  || ((65 <=? c) && (c <=? 70)).

(** [' '], the class under the [+] of [r'  +']. *)
Definition is_space (c : char) : bool := c =? SPACE.

(** [match_here re s] matches [re] at the start of [s] the way the
    backtracking engine of [re] does: a literal consumes one equal
    character, [cls+] first consumes as many characters of the class as
    there are and gives them back one at a time while the rest of the
    pattern fails.  The result is the text after the match. *)
Fixpoint match_here (re : regex) : text -> option text :=
  match re with
  | [] => fun s => Some s
  | Lit c :: re' =>
      fun s =>
        match s with
        | x :: s' => if x =? c then match_here re' s' else None
        | [] => None
        end
  | Plus cls :: re' =>
      fix plus (s : text) : option text :=
        match s with
        | x :: s' =>
            if cls x then
              match plus s' with
              | Some r => Some r
              | None => match_here re' s'
              end
            else None
        | [] => None
        end
  end.

(** [re.sub(re, repl, s)]: scan from the left; where the pattern matches,
    emit [repl] and go on after the match; elsewhere copy one character.
    None of the script's patterns matches the empty string, so the rest
    after a match is shorter and [length s] steps of fuel are enough
    ([sub_cons_match] and [sub_cons_nomatch] below are the equations
    without fuel). *)
Fixpoint sub_fuel (fuel : nat) (re : regex) (repl s : text) : text :=
  match fuel with
  | O => s
  | S n =>
      match s with
      | [] => []
      | c :: s' =>
          match match_here re s with
          | Some rest => repl ++ sub_fuel n re repl rest
          | None => c :: sub_fuel n re repl s'
          end
      end
  end.

Definition sub (re : regex) (repl s : text) : text :=
  sub_fuel (S (List.length s)) re repl s.

(** [occurs re s]: the pattern matches at some position of [s]. *)
Fixpoint occurs (re : regex) (s : text) : bool :=
  match s with
  | [] => false
  | _ :: s' =>
      match match_here re s with
      | Some _ => true
      | None => occurs re s'
      end
  end.

(** [avoids d re]: no atom of [re] can consume the character [d]. *)
Fixpoint avoids (d : char) (re : regex) : bool :=
  match re with
  | [] => true
  | Lit c :: re' => negb (c =? d) && avoids d re'
  | Plus cls :: re' => negb (cls d) && avoids d re'
  end.

(** ** The script *)

(** The four blocks of lines 8-26, named after their comments. *)

(* Remove metalness *)
Definition remove_metalness (content : text) : text :=
  let content := sub (lits (str "; metalness: ") ++ [Plus digits_dot]) [] content in
  let content := sub (lits (str "metalness: ") ++ [Plus digits_dot] ++ lits (str "; ")) [] content in
  let content := sub (lits (str "metalness: ") ++ [Plus digits_dot]) [] content in
  content.

(* Remove roughness *)
Definition remove_roughness (content : text) : text :=
  let content := sub (lits (str "; roughness: ") ++ [Plus digits_dot]) [] content in
  let content := sub (lits (str "roughness: ") ++ [Plus digits_dot] ++ lits (str "; ")) [] content in
  let content := sub (lits (str "roughness: ") ++ [Plus digits_dot]) [] content in
  content.

(* Remove emissive *)
Definition remove_emissive (content : text) : text :=
  let content := sub (lits (str "; emissive: #") ++ [Plus hex_digit]) [] content in
  let content := sub (lits (str "emissive: #") ++ [Plus hex_digit] ++ lits (str "; ")) [] content in
  let content := sub (lits (str "emissive: #") ++ [Plus hex_digit]) [] content in
  content.

(* Remove emissiveIntensity *)
Definition remove_emissiveIntensity (content : text) : text :=
  let content := sub (lits (str "; emissiveIntensity: ") ++ [Plus digits_dot]) [] content in
  let content := sub (lits (str "emissiveIntensity: ") ++ [Plus digits_dot] ++ lits (str "; ")) [] content in
  let content := sub (lits (str "emissiveIntensity: ") ++ [Plus digits_dot]) [] content in
  content.

(** Lines 28-30.  In [r'  +'] the [+] binds the second space only: one
    space, then one or more spaces. *)
Definition double_spaces : regex := [Lit SPACE; Plus is_space].
Definition semi_quote : regex := [Lit SEMI; Lit SPACE; Lit QUOTE].

(* Clean up any double spaces or trailing semicolons *)
Definition clean_up (content : text) : text :=
  let content := sub double_spaces [SPACE] content in
  let content := sub semi_quote [QUOTE] content in
  content.

(** Lines 8-26: the twelve strip substitutions. *)
Definition strip (content : text) : text :=
  remove_emissiveIntensity
    (remove_emissive (remove_roughness (remove_metalness content))).

(** Lines 8-30: what happens to [content] between the read and the
    write. *)
Definition transform (content : text) : text := clean_up (strip content).

(** *** The four properties *)

Inductive property : Type :=
| Metalness | Roughness | Emissive | EmissiveIntensity.

Definition all_properties : list property :=
  [Metalness; Roughness; Emissive; EmissiveIntensity].

Definition property_eqb (p q : property) : bool :=
  match p, q with
  | Metalness, Metalness | Roughness, Roughness
  | Emissive, Emissive | EmissiveIntensity, EmissiveIntensity => true
  | _, _ => false
  end.

(** The literal part of a token, up to the first character of the
    class. *)
Definition prefix (p : property) : text :=
  match p with
  | Metalness => str "metalness: "
  | Roughness => str "roughness: "
  | Emissive => str "emissive: #"
  | EmissiveIntensity => str "emissiveIntensity: "
  end.

Definition cls (p : property) : char -> bool :=
  match p with
  | Emissive => hex_digit
  | _ => digits_dot
  end.

Definition separator : text := [SEMI; SPACE].

Definition bare (p : property) : regex := lits (prefix p) ++ [Plus (cls p)].
Definition leading (p : property) : regex := lits separator ++ bare p.
Definition trailing (p : property) : regex := bare p ++ lits separator.

Definition remove (p : property) : text -> text :=
  match p with
  | Metalness => remove_metalness
  | Roughness => remove_roughness
  | Emissive => remove_emissive
  | EmissiveIntensity => remove_emissiveIntensity
  end.

(** The strip blocks applied in the order of a list of properties. *)
Definition strip_in_order (order : list property) (content : text) : text :=
  fold_left (fun acc p => remove p acc) order content.

(** The fourteen substitutions as (pattern, replacement) pairs, in the
    order of the script. *)
Definition rules : list (regex * text) :=
  flat_map (fun p => [(leading p, []); (trailing p, []); (bare p, [])])
           all_properties
  ++ [(double_spaces, [SPACE]); (semi_quote, [QUOTE])].

Definition run_rules (rs : list (regex * text)) (content : text) : text :=
  fold_left (fun acc r => sub (fst r) (snd r) acc) rs content.

(** A rule is safe when its replacement is shorter than the shortest
    match of its pattern. *)
Definition rule_ok (r : regex * text) : bool :=
  Nat.ltb (List.length (snd r)) (List.length (fst r)).

Definition no_rule_occurs (rs : list (regex * text)) (s : text) : bool :=
  forallb (fun r => negb (occurs (fst r) s)) rs.

(** The class cannot take the first character of what follows it. *)
Definition stops_before (f : char -> bool) (post : text) : bool :=
  match post with
  | [] => true
  | c :: _ => negb (f c)
  end.

Definition rule_avoids (d : char) (r : regex * text) : bool :=
  avoids d (fst r) && negb (Nat.eqb (List.length (fst r)) 0).

Definition rule_keeps (d : char) (r : regex * text) : bool :=
  rule_avoids d r && negb (existsb (N.eqb d) (snd r)).

(** *** What the text contains *)

Definition has_token (s : text) : bool :=
  existsb (fun p => occurs (bare p) s) all_properties.

(** No target token, no run of two spaces, no semicolon-space-quote. *)
Definition clean (s : text) : bool :=
  negb (has_token s) && negb (occurs double_spaces s)
  && negb (occurs semi_quote s).

(** ** The strip step in the words of the specification

    [strip_property(text, property_name, value_pattern)]: the three forms
    [; name: value], [name: value; ] and [name: value], each a global
    replacement by the empty string, in this order. *)

Definition numeric_value : regex := [Plus digits_dot].
Definition color_value : regex := [Lit 35; Plus hex_digit].

Definition strip_property (t : text) (property_name : text)
    (value_pattern : regex) : text :=
  let token := lits property_name ++ lits (str ": ") ++ value_pattern in
  let t := sub (lits (str "; ") ++ token) [] t in
  let t := sub (token ++ lits (str "; ")) [] t in
  let t := sub token [] t in
  t.

Definition property_name (p : property) : text :=
  match p with
  | Metalness => str "metalness"
  | Roughness => str "roughness"
  | Emissive => str "emissive"
  | EmissiveIntensity => str "emissiveIntensity"
  end.

Definition value_pattern (p : property) : regex :=
  match p with
  | Emissive => color_value
  | _ => numeric_value
  end.

(** A form read without a regex engine: the literal [pre], then the
    longest run of characters of the class, which must not be empty,
    then the literal [post]. *)
Fixpoint strip_prefix (pre s : text) : option text :=
  match pre with
  | [] => Some s
  | c :: pre' =>
      match s with
      | x :: s' => if x =? c then strip_prefix pre' s' else None
      | [] => None
      end
  end.

Fixpoint span (f : char -> bool) (s : text) : text * text :=
  match s with
  | x :: s' =>
      if f x then let (v, r) := span f s' in (x :: v, r) else ([], s)
  | [] => ([], [])
  end.

Definition form_match (pre : text) (f : char -> bool) (post s : text)
    : option text :=
  match strip_prefix pre s with
  | None => None
  | Some s1 =>
      match span f s1 with
      | ([], _) => None
      | (_ :: _, s2) => strip_prefix post s2
      end
  end.

(** One step of a global removal: at a match go on after it, elsewhere
    keep the character and go on with the next. *)
Definition global_removal_step (match_form : text -> option text)
    (continue : text -> text) (s : text) : text :=
  match s with
  | [] => []
  | c :: s' =>
      match match_form s with
      | Some rest => continue rest
      | None => c :: continue s'
      end
  end.

(** ** The clean-up step in the words of the specification *)

(** Every run of two or more spaces becomes one space. *)
Fixpoint collapse_spaces (s : text) : text :=
  match s with
  | [] => []
  | c :: s' =>
      if c =? SPACE then
        match s' with
        | c' :: _ => if c' =? SPACE then collapse_spaces s'
                     else c :: collapse_spaces s'
        | [] => [c]
        end
      else c :: collapse_spaces s'
  end.

(** Every semicolon-space-quote becomes a quote. *)
Fixpoint drop_semi_before_quote (s : text) : text :=
  match s with
  | [] => []
  | c1 :: s1 =>
      match s1 with
      | c2 :: c3 :: s3 =>
          if (c1 =? SEMI) && (c2 =? SPACE) && (c3 =? QUOTE)
          then QUOTE :: drop_semi_before_quote s3
          else c1 :: drop_semi_before_quote s1
      | _ => c1 :: drop_semi_before_quote s1
      end
  end.

(** Two spaces stand side by side somewhere in [s]. *)
Fixpoint has_double_space (s : text) : bool :=
  match s with
  | x :: s' =>
      match s' with
      | y :: _ => ((x =? SPACE) && (y =? SPACE)) || has_double_space s'
      | [] => false
      end
  | [] => false
  end.

(** [s] starts with one or more spaces and then a quote. *)
Fixpoint spaces_then_quote (s : text) : bool :=
  match s with
  | c :: s' =>
      (c =? SPACE)
      && match s' with
         | c' :: _ => (c' =? QUOTE) || spaces_then_quote s'
         | [] => false
         end
  | [] => false
  end.

Definition starts_with (c : char) (s : text) : bool :=
  match s with
  | x :: _ => x =? c
  | [] => false
  end.

(** [s] starts with a character of the class. *)
Definition starts_in (f : char -> bool) (s : text) : bool :=
  match s with
  | x :: _ => f x
  | [] => false
  end.

Fixpoint ends_with (c : char) (s : text) : bool :=
  match s with
  | [] => false
  | x :: s' =>
      match s' with
      | [] => x =? c
      | _ :: _ => ends_with c s'
      end
  end.

(** ** Attribute lists

    The texts the script is written for: attribute values between
    double quotes, each a list of entries separated by [; ].  An entry
    is a token of one of the four properties or any other text without
    a token. *)

Inductive entry : Type :=
| Tok (p : property) (v : text)
| Other (w : text).

Definition render (e : entry) : text :=
  match e with
  | Tok p v => prefix p ++ v
  | Other w => w
  end.

Definition entry_ok (e : entry) : bool :=
  match e with
  | Tok p v => negb (Nat.eqb (List.length v) 0) && forallb (cls p) v
  | Other w => negb (has_token w)
  end.

Definition is_tok (p : property) (e : entry) : bool :=
  match e with
  | Tok q _ => property_eqb p q
  | Other _ => false
  end.

Definition is_other (e : entry) : bool :=
  match e with
  | Tok _ _ => false
  | Other _ => true
  end.

(** What the strip block of [q] keeps of a list. *)
Definition keeps (q : property) (e : entry) : bool := negb (is_tok q e).

Definition keeps_all (order : list property) (e : entry) : bool :=
  forallb (fun q => keeps q e) order.

(** The entries after the first, each with its separator in front. *)
Definition join_tail (es : list entry) : text :=
  flat_map (fun e => separator ++ render e) es.

Definition join (es : list entry) : text :=
  match es with
  | [] => []
  | e :: es' => render e ++ join_tail es'
  end.

(** A document: segments between double quotes. *)
Definition document := list (list entry).

Fixpoint render_document (d : document) : text :=
  match d with
  | [] => []
  | [es] => join es
  | es :: d' => join es ++ QUOTE :: render_document d'
  end.

Definition document_ok (d : document) : bool :=
  forallb (forallb entry_ok) d.

(** An element with a material of three entries, two of them tokens. *)
Definition sample_document : document :=
  [[Other (str "<a-box material=")];
   [Other (str "color: #ff0000"); Tok Metalness (str "0.8");
    Tok Roughness (str "0.3")];
   [Other (str "></a-box>")]].

(** ** The program

    Lines 4-5, 33-34 and 36-37: the read, the write and the two prints,
    over a world that holds the bytes of the file, says what the program
    may do with it, on which platform it runs and what its standard
    output can encode, and records what the program did.  An exception
    ends the program.  Failures of the operating system other than a
    missing file and a refused permission (a full disk, a closed
    output) are outside this world. *)

(** A byte is a number below 256; the decoder refuses anything else. *)
Definition byte : Type := N.

Definition CR : char := 13.

(** *** UTF-8, the [encoding] of lines 4 and 33 *)

Definition continuation (b : byte) : bool := (128 <=? b) && (b <=? 191).

(** A code point that is no surrogate and at most U+10FFFF. *)
Definition scalar (c : char) : bool :=
  (c <? 55296) || ((57343 <? c) && (c <=? 1114111)).

(** The strict decoder: no overlong form, no surrogate, nothing above
    U+10FFFF, no truncated sequence.  A byte order mark is an ordinary
    character. *)
Fixpoint utf8_decode (bs : list byte) : option text :=
  match bs with
  | [] => Some []
  | b0 :: r0 =>
      if b0 <? 128 then option_map (cons b0) (utf8_decode r0)
      else if (194 <=? b0) && (b0 <=? 223) then
        match r0 with
        | b1 :: r1 =>
            if continuation b1
            then option_map (cons ((b0 - 192) * 64 + (b1 - 128)))
                            (utf8_decode r1)
            else None
        | [] => None
        end
      else if (224 <=? b0) && (b0 <=? 239) then
        match r0 with
        | b1 :: b2 :: r2 =>
            let c := (b0 - 224) * 4096 + (b1 - 128) * 64 + (b2 - 128) in
            if continuation b1 && continuation b2
               && (2048 <=? c) && scalar c
            then option_map (cons c) (utf8_decode r2)
            else None
        | _ => None
        end
      else if (240 <=? b0) && (b0 <=? 244) then
        match r0 with
        | b1 :: b2 :: b3 :: r3 =>
            let c := (b0 - 240) * 262144 + (b1 - 128) * 4096
                     + (b2 - 128) * 64 + (b3 - 128) in
            if continuation b1 && continuation b2 && continuation b3
               && (65536 <=? c) && (c <=? 1114111)
            then option_map (cons c) (utf8_decode r3)
            else None
        | _ => None
        end
      else None
  end.

Definition utf8_encode_char (c : char) : option (list byte) :=
  if c <? 128 then Some [c]
  else if c <? 2048 then Some [192 + c / 64; 128 + c mod 64]
  else if c <? 65536 then
    if scalar c
    then Some [224 + c / 4096; 128 + (c / 64) mod 64; 128 + c mod 64]
    else None
  else if c <=? 1114111 then
    Some [240 + c / 262144; 128 + (c / 4096) mod 64;
          128 + (c / 64) mod 64; 128 + c mod 64]
  else None.

Fixpoint utf8_encode (s : text) : option (list byte) :=
  match s with
  | [] => Some []
  | c :: s' =>
      match utf8_encode_char c, utf8_encode s' with
      | Some a, Some b => Some (a ++ b)
      | _, _ => None
      end
  end.

(** *** Newlines of a file opened as text

    [open] is called without [newline]: on reading, a carriage return
    with a line feed behind it and a carriage return alone both become
    a line feed; on writing, every line feed becomes [os.linesep]. *)

Fixpoint universal_newlines (s : text) : text :=
  match s with
  | [] => []
  | c :: s' =>
      if c =? CR then
        match s' with
        | c' :: s'' =>
            if c' =? NEWLINE then NEWLINE :: universal_newlines s''
            else NEWLINE :: universal_newlines s'
        | [] => [NEWLINE]
        end
      else c :: universal_newlines s'
  end.

Inductive platform : Type :=
| Posix
| Windows.

Definition linesep (p : platform) : text :=
  match p with
  | Posix => [NEWLINE]
  | Windows => [CR; NEWLINE]
  end.

Definition write_newlines (p : platform) (s : text) : text :=
  flat_map (fun c => if c =? NEWLINE then linesep p else [c]) s.

(** *** The world and the program *)

Inductive event : Type :=
| Read
| Wrote (content : text)
| Printed (line : text).

Inductive exn : Type :=
| FileNotFoundError
| PermissionError
| UnicodeDecodeError
| UnicodeEncodeError.

Record world : Type := mkWorld {
  index_html : option (list byte);
  readable : bool;
  writable : bool;
  os : platform;
  stdout_encodes : char -> bool;
  trace : list event
}.

Definition io (A : Type) : Type := world -> (A + exn) * world.

Definition ret {A : Type} (a : A) : io A := fun w => (inl a, w).

Definition bind {A B : Type} (m : io A) (k : A -> io B) : io B :=
  fun w =>
    match m w with
    | (inl a, w') => k a w'
    | (inr e, w') => (inr e, w')
    end.

Notation "x <- m ;; k" := (bind m (fun x => k))
  (at level 61, m at next level, right associativity).
Notation "m ;;; k" := (bind m (fun _ => k))
  (at level 61, right associativity).

Definition log (ev : event) (w : world) : world :=
  mkWorld (index_html w) (readable w) (writable w) (os w)
          (stdout_encodes w) (trace w ++ [ev]).

Definition set_file (bs : list byte) (w : world) : world :=
  mkWorld (Some bs) (readable w) (writable w) (os w)
          (stdout_encodes w) (trace w).

(** Lines 4-5: [open] raises when the file is missing or may not be
    read; [read] raises when the bytes are no UTF-8 and returns the
    decoded text with its newlines translated. *)
Definition read_file : io text :=
  fun w =>
    match index_html w with
    | None => (inr FileNotFoundError, w)
    | Some bs =>
        if readable w then
          match utf8_decode bs with
          | Some raw => (inl (universal_newlines raw), log Read w)
          | None => (inr UnicodeDecodeError, w)
          end
        else (inr PermissionError, w)
    end.

(** Lines 33-34: [open] raises when the file may not be written, and
    empties it otherwise; [write] encodes the text with its newlines
    translated, and raises on a text that UTF-8 cannot encode. *)
Definition write_file (content : text) : io unit :=
  fun w =>
    if writable w then
      match utf8_encode (write_newlines (os w) content) with
      | Some bs => (inl tt, log (Wrote content) (set_file bs w))
      | None => (inr UnicodeEncodeError, set_file [] w)
      end
    else (inr PermissionError, w).

(** Lines 36-37: [print] raises when standard output cannot encode a
    character of the line. *)
Definition print (line : text) : io unit :=
  fun w =>
    if forallb (stdout_encodes w) line
    then (inl tt, log (Printed line) w)
    else (inr UnicodeEncodeError, w).

(** U+2705, the check mark of the first status line. *)
Definition CHECK_MARK : char := 9989.

Definition status_fixed : text :=
  CHECK_MARK :: str " Fixed all unsupported material properties!".
Definition status_removed : text :=
  str "Removed: metalness, roughness, emissive, emissiveIntensity".

Definition main : io unit :=
  content <- read_file ;;
  write_file (transform content) ;;;
  print status_fixed ;;;
  print status_removed.

(** Standard outputs: one that encodes every character, and one that
    encodes the characters of Latin-1 only. *)
Definition utf8_stdout (c : char) : bool := true.
Definition latin1_stdout (c : char) : bool := c <? 256.

(** A world where the run succeeds: the file holds
    [material=(quote)metalness: 1.0(quote)]. *)
Definition sample_world : world :=
  mkWorld (Some (str "material=" ++ QUOTE :: str "metalness: 1.0" ++ [QUOTE]))
          true true Posix utf8_stdout [].

(** The same file and permissions, on a standard output that cannot
    encode the check mark. *)
Definition latin1_world : world :=
  mkWorld (Some (str "material=" ++ QUOTE :: str "metalness: 1.0" ++ [QUOTE]))
          true true Posix latin1_stdout [].

Definition printed (evs : list event) : list text :=
  flat_map (fun ev => match ev with Printed l => [l] | _ => [] end) evs.

(** ** Deleting only *)

(** [subseq s t]: [s] is [t] with some characters left out. *)
Inductive subseq : text -> text -> Prop :=
| subseq_nil : subseq [] []
| subseq_skip (x : char) (s t : text) : subseq s t -> subseq s (x :: t)
| subseq_keep (x : char) (s t : text) : subseq s t -> subseq (x :: s) (x :: t).

(** ** Proof automation *)

(** Boolean comparisons of the hypotheses as propositions. *)
Ltac to_props :=
  unfold byte, char in *;
  repeat match goal with
  | H : _ && _ = true |- _ => apply andb_prop in H; destruct H
  | H : (_ <=? _) = true |- _ => apply N.leb_le in H
  | H : (_ <? _) = true |- _ => apply N.ltb_lt in H
  | H : (_ <? _) = false |- _ => apply N.ltb_ge in H
  | H : (_ <=? _) = false |- _ => apply N.leb_gt in H
  end.

(** * Properties *)

Example transform_e2e :
  transform (str "material=" ++ QUOTE
             :: str "color: #ff0000; metalness: 0.8; roughness: 0.3"
             ++ [QUOTE])
  = str "material=" ++ QUOTE :: str "color: #ff0000" ++ [QUOTE].
Proof. vm_compute. reflexivity. Qed.


(** ** The matcher and [sub] *)

Lemma match_here_plus f re x s :
  match_here (Plus f :: re) (x :: s)
  = if f x then
      match match_here (Plus f :: re) s with
      | Some r => Some r
      | None => match_here re s
      end
    else None.
Proof. reflexivity. Qed.

Lemma match_here_lit c re x s :
  match_here (Lit c :: re) (x :: s)
  = if x =? c then match_here re s else None.
Proof. reflexivity. Qed.

Lemma match_here_nil_text a re : match_here (a :: re) [] = None.
Proof. destruct a; reflexivity. Qed.

(** A match consumes at least one character per atom. *)
Lemma match_here_length re :
  forall s r, match_here re s = Some r ->
  (List.length r + List.length re <= List.length s)%nat.
Proof.
  induction re as [|[c|f] re IH]; intros s r H.
  - simpl in H. injection H as <-. simpl. lia.
  - destruct s as [|x s]; [discriminate|].
    rewrite match_here_lit in H.
    destruct (x =? c); [|discriminate].
    apply IH in H. simpl. lia.
  - revert r H. induction s as [|x s IHs]; intros r H; [discriminate|].
    rewrite match_here_plus in H.
    destruct (f x); [|discriminate].
    destruct (match_here (Plus f :: re) s) as [r'|] eqn:E.
    + injection H as <-. specialize (IHs _ eq_refl). simpl in *. lia.
    + apply IH in H. simpl. lia.
Qed.

Lemma sub_fuel_cons n re repl c s :
  sub_fuel (S n) re repl (c :: s)
  = match match_here re (c :: s) with
    | Some rest => repl ++ sub_fuel n re repl rest
    | None => c :: sub_fuel n re repl s
    end.
Proof. reflexivity. Qed.

Lemma sub_fuel_enough re repl :
  re <> [] ->
  forall n m s,
    (List.length s < n)%nat -> (List.length s < m)%nat ->
    sub_fuel n re repl s = sub_fuel m re repl s.
Proof.
  intros Hre. induction n as [|n IH]; intros m s Hn Hm; [lia|].
  destruct m as [|m]; [lia|].
  destruct s as [|c s]; [reflexivity|].
  rewrite !sub_fuel_cons.
  destruct (match_here re (c :: s)) as [rest|] eqn:E.
  - apply match_here_length in E.
    assert (0 < List.length re)%nat by (destruct re; [congruence|simpl; lia]).
    f_equal. apply IH; simpl in *; lia.
  - f_equal. apply IH; simpl in *; lia.
Qed.

Lemma sub_nil re repl : sub re repl [] = [].
Proof. reflexivity. Qed.

Lemma sub_cons_nomatch re repl c s :
  match_here re (c :: s) = None ->
  sub re repl (c :: s) = c :: sub re repl s.
Proof.
  intros H. unfold sub. cbn [List.length]. rewrite sub_fuel_cons, H.
  reflexivity.
Qed.

Lemma sub_cons_match re repl c s rest :
  re <> [] ->
  match_here re (c :: s) = Some rest ->
  sub re repl (c :: s) = repl ++ sub re repl rest.
Proof.
  intros Hre H. unfold sub. cbn [List.length]. rewrite sub_fuel_cons, H.
  f_equal. apply sub_fuel_enough; [assumption| |lia].
  apply match_here_length in H.
  destruct re; [congruence|]. simpl in *. lia.
Qed.

(** Induction on the text along the steps of [sub]. *)
Lemma text_length_ind (P : text -> Prop) :
  (forall s, (forall s', (List.length s' < List.length s)%nat -> P s') -> P s) ->
  forall s, P s.
Proof.
  intros H s.
  assert (G : forall n s, (List.length s < n)%nat -> P s).
  { induction n as [|n IH]; intros s0 Hs; [lia|].
    apply H. intros s' Hs'. apply IH. lia. }
  apply (G (S (List.length s))). lia.
Qed.

Lemma match_here_shorter re c s rest :
  re <> [] -> match_here re (c :: s) = Some rest ->
  (List.length rest < List.length (c :: s))%nat.
Proof.
  intros Hre H. apply match_here_length in H.
  destruct re; [congruence|]. simpl in *. lia.
Qed.

(** [sub] never lengthens the text when the replacement is at most as
    long as the shortest match. *)
Lemma sub_length_le re repl :
  (List.length repl <= List.length re)%nat -> re <> [] ->
  forall s, (List.length (sub re repl s) <= List.length s)%nat.
Proof.
  intros Hlen Hre s. induction s as [s IH] using text_length_ind.
  destruct s as [|c s]; [simpl; lia|].
  destruct (match_here re (c :: s)) as [rest|] eqn:E.
  - rewrite (sub_cons_match _ _ _ _ _ Hre E). rewrite length_app.
    pose proof (match_here_length _ _ _ E).
    pose proof (IH rest (match_here_shorter _ _ _ _ Hre E)). lia.
  - rewrite (sub_cons_nomatch _ _ _ _ E). simpl.
    pose proof (IH s). simpl in *. lia.
Qed.

Lemma sub_no_occurrence re repl :
  forall s, occurs re s = false -> sub re repl s = s.
Proof.
  induction s as [|c s IH]; intros H; [reflexivity|].
  cbn [occurs] in H.
  destruct (match_here re (c :: s)) eqn:E; [discriminate|].
  rewrite (sub_cons_nomatch _ _ _ _ E). f_equal. auto.
Qed.

(** Where the pattern occurs and the replacement is shorter than every
    match, [sub] shortens the text. *)
Lemma sub_length_lt re repl :
  (List.length repl < List.length re)%nat ->
  forall s, occurs re s = true ->
  (List.length (sub re repl s) < List.length s)%nat.
Proof.
  intros Hlen.
  assert (Hre : re <> []) by (destruct re; [simpl in Hlen; lia|congruence]).
  induction s as [|c s IH]; intros H; [discriminate|].
  cbn [occurs] in H.
  destruct (match_here re (c :: s)) as [rest|] eqn:E.
  - rewrite (sub_cons_match _ _ _ _ _ Hre E). rewrite length_app.
    pose proof (match_here_length _ _ _ E).
    assert (List.length (sub re repl rest) <= List.length rest)%nat
      by (apply sub_length_le; [lia|assumption]).
    lia.
  - rewrite (sub_cons_nomatch _ _ _ _ E). simpl.
    specialize (IH H). lia.
Qed.

Lemma sub_fixed_iff re repl :
  (List.length repl < List.length re)%nat ->
  forall s, sub re repl s = s <-> occurs re s = false.
Proof.
  intros Hlen s. split.
  - intros H. destruct (occurs re s) eqn:E; [|reflexivity].
    apply (sub_length_lt _ repl Hlen) in E. rewrite H in E. lia.
  - apply sub_no_occurrence.
Qed.

(** ** Occurrences *)

Lemma match_here_occurs re s r :
  re <> [] -> match_here re s = Some r -> occurs re s = true.
Proof.
  intros Hre H. destruct s as [|x s].
  - destruct re as [|a re]; [congruence|].
    rewrite match_here_nil_text in H. discriminate.
  - cbn [occurs]. rewrite H. reflexivity.
Qed.

Lemma occurs_cons re x s :
  occurs re s = true -> occurs re (x :: s) = true.
Proof.
  intros H. cbn [occurs]. destruct (match_here re (x :: s)); auto.
Qed.

Lemma occurs_cons_nomatch re x s :
  match_here re (x :: s) = None -> occurs re (x :: s) = occurs re s.
Proof. intros H. cbn [occurs]. rewrite H. reflexivity. Qed.

Lemma occurs_lit_cons c re s :
  re <> [] -> occurs (Lit c :: re) s = true -> occurs re s = true.
Proof.
  intros Hre. induction s as [|x s IH]; intros H; [discriminate|].
  cbn [occurs] in H. rewrite match_here_lit in H.
  apply occurs_cons.
  destruct (x =? c).
  - destruct (match_here re s) eqn:E; [|auto].
    apply (match_here_occurs _ _ _ Hre E).
  - auto.
Qed.

Lemma occurs_lits_app l re s :
  re <> [] -> occurs (lits l ++ re) s = true -> occurs re s = true.
Proof.
  intros Hre. induction l as [|c l IH]; intros H; [exact H|].
  apply IH. apply (occurs_lit_cons c); [|exact H].
  destruct l; [exact Hre|discriminate].
Qed.

(** A match of [re ++ re2] starts with a match of [re]. *)
Lemma match_here_app_some re re2 :
  forall s r, match_here (re ++ re2) s = Some r ->
  exists r', match_here re s = Some r'.
Proof.
  induction re as [|[c|f] re IH]; intros s r H.
  - exists s. reflexivity.
  - destruct s as [|x s]; [discriminate|].
    cbn [app] in H. rewrite match_here_lit in *.
    destruct (x =? c); [eauto|discriminate].
  - revert r H. induction s as [|x s IHs]; intros r H; [discriminate|].
    cbn [app] in H. rewrite match_here_plus in *.
    destruct (f x); [|discriminate].
    destruct (match_here (Plus f :: re ++ re2) s) as [r1|] eqn:E.
    + destruct (IHs _ E) as [r' ->]. eauto.
    + destruct (match_here (Plus f :: re) s); [eauto|].
      eapply IH; eassumption.
Qed.

Lemma occurs_app_suffix re re2 s :
  occurs (re ++ re2) s = true -> occurs re s = true.
Proof.
  induction s as [|x s IH]; intros H; [discriminate|].
  cbn [occurs] in *.
  destruct (match_here (re ++ re2) (x :: s)) eqn:E.
  - apply match_here_app_some in E as [r' ->]. reflexivity.
  - destruct (match_here re (x :: s)); auto.
Qed.

(** A match stays a match when text is appended. *)
Lemma match_here_app_text re :
  forall s r t, match_here re s = Some r ->
  exists r', match_here re (s ++ t) = Some r'.
Proof.
  induction re as [|[c|f] re IH]; intros s r t H.
  - eexists. reflexivity.
  - destruct s as [|x s]; [discriminate|].
    cbn [app]. rewrite match_here_lit in *.
    destruct (x =? c); [eauto|discriminate].
  - revert r H. induction s as [|x s IHs]; intros r H; [discriminate|].
    cbn [app]. rewrite match_here_plus in *.
    destruct (f x); [|discriminate].
    destruct (match_here (Plus f :: re) s) as [r1|] eqn:E.
    + destruct (IHs _ eq_refl) as [r' ->]. eauto.
    + destruct (match_here (Plus f :: re) (s ++ t)); [eauto|].
      eapply IH; eassumption.
Qed.

Lemma occurs_app_l re s t :
  occurs re s = true -> occurs re (s ++ t) = true.
Proof.
  induction s as [|x s IH]; intros H; [discriminate|].
  cbn [occurs app] in *.
  destruct (match_here re (x :: s)) eqn:E.
  - apply (match_here_app_text _ _ _ t) in E as [r' E]. cbn [app] in E.
    rewrite E. reflexivity.
  - destruct (match_here re (x :: s ++ t)); auto.
Qed.

Lemma occurs_app_r re s t :
  occurs re t = true -> occurs re (s ++ t) = true.
Proof.
  intros H. induction s as [|x s IH]; [exact H|].
  cbn [app]. apply occurs_cons. exact IH.
Qed.

Lemma occurs_app_false re s t :
  occurs re (s ++ t) = false -> occurs re s = false /\ occurs re t = false.
Proof.
  intros H. split.
  - destruct (occurs re s) eqn:E; [|reflexivity].
    apply (occurs_app_l _ _ t) in E. congruence.
  - destruct (occurs re t) eqn:E; [|reflexivity].
    apply (occurs_app_r _ s) in E. congruence.
Qed.

(** ** The fourteen rules *)

Lemma rule_ok_spec r :
  rule_ok r = true -> (List.length (snd r) < List.length (fst r))%nat.
Proof. apply Nat.ltb_lt. Qed.

Lemma rules_ok : forallb rule_ok rules = true.
Proof. vm_compute. reflexivity. Qed.

Lemma run_rules_cons r rs s :
  run_rules (r :: rs) s = run_rules rs (sub (fst r) (snd r) s).
Proof. reflexivity. Qed.

Lemma run_rules_length_le rs :
  forallb rule_ok rs = true ->
  forall s, (List.length (run_rules rs s) <= List.length s)%nat.
Proof.
  induction rs as [|r rs IH]; intros Hok s; [simpl; lia|].
  cbn [forallb] in Hok. apply andb_prop in Hok as [Hr Hrs].
  rewrite run_rules_cons. apply rule_ok_spec in Hr.
  etransitivity; [apply IH; assumption|].
  apply sub_length_le; [lia|]. destruct (fst r); [simpl in Hr; lia|congruence].
Qed.

Lemma run_rules_fixed_iff rs :
  forallb rule_ok rs = true ->
  forall s, run_rules rs s = s <-> no_rule_occurs rs s = true.
Proof.
  induction rs as [|r rs IH]; intros Hok s; [simpl; tauto|].
  cbn [forallb] in Hok. apply andb_prop in Hok as [Hr Hrs].
  rewrite run_rules_cons. unfold no_rule_occurs. cbn [forallb].
  fold (no_rule_occurs rs s). apply rule_ok_spec in Hr.
  rewrite andb_true_iff, negb_true_iff. split.
  - intros H.
    assert (E : occurs (fst r) s = false).
    { destruct (occurs (fst r) s) eqn:E; [|reflexivity].
      apply (sub_length_lt _ _ Hr) in E.
      pose proof (run_rules_length_le rs Hrs (sub (fst r) (snd r) s)) as L.
      rewrite H in L. lia. }
    split; [exact E|].
    rewrite (sub_no_occurrence _ _ _ E) in H. apply IH; assumption.
  - intros [E H]. rewrite (sub_no_occurrence _ _ _ E). apply IH; assumption.
Qed.

Lemma rules_eq :
  rules =
  [(lits (str "; metalness: ") ++ [Plus digits_dot], []);
   (lits (str "metalness: ") ++ [Plus digits_dot] ++ lits (str "; "), []);
   (lits (str "metalness: ") ++ [Plus digits_dot], []);
   (lits (str "; roughness: ") ++ [Plus digits_dot], []);
   (lits (str "roughness: ") ++ [Plus digits_dot] ++ lits (str "; "), []);
   (lits (str "roughness: ") ++ [Plus digits_dot], []);
   (lits (str "; emissive: #") ++ [Plus hex_digit], []);
   (lits (str "emissive: #") ++ [Plus hex_digit] ++ lits (str "; "), []);
   (lits (str "emissive: #") ++ [Plus hex_digit], []);
   (lits (str "; emissiveIntensity: ") ++ [Plus digits_dot], []);
   (lits (str "emissiveIntensity: ") ++ [Plus digits_dot] ++ lits (str "; "), []);
   (lits (str "emissiveIntensity: ") ++ [Plus digits_dot], []);
   (double_spaces, [SPACE]); (semi_quote, [QUOTE])].
Proof. vm_compute. reflexivity. Qed.

Lemma transform_rules x : transform x = run_rules rules x.
Proof.
  rewrite rules_eq. unfold run_rules. cbn [fold_left fst snd]. reflexivity.
Qed.

Lemma bare_nonempty p : bare p <> [].
Proof. destruct p; discriminate. Qed.

Lemma occurs_leading_bare p s :
  occurs (leading p) s = true -> occurs (bare p) s = true.
Proof. apply occurs_lits_app, bare_nonempty. Qed.

Lemma occurs_trailing_bare p s :
  occurs (trailing p) s = true -> occurs (bare p) s = true.
Proof. apply occurs_app_suffix. Qed.

Lemma has_token_false s :
  has_token s = false <-> forall p, occurs (bare p) s = false.
Proof.
  unfold has_token, all_properties. cbn [existsb].
  rewrite !orb_false_iff. split.
  - intros (?&?&?&?&_) []; assumption.
  - intros H. repeat split; apply H.
Qed.

Lemma clean_spec s :
  clean s = true <->
  (forall p, occurs (bare p) s = false)
  /\ occurs double_spaces s = false /\ occurs semi_quote s = false.
Proof.
  unfold clean. rewrite !andb_true_iff, !negb_true_iff, has_token_false.
  tauto.
Qed.

Lemma clean_no_rule_occurs s : clean s = no_rule_occurs rules s.
Proof.
  apply eq_true_iff_eq. rewrite clean_spec.
  unfold no_rule_occurs, rules, all_properties.
  cbn [flat_map app forallb fst].
  rewrite !andb_true_iff, !negb_true_iff. split.
  - intros (Hb & Hd & Hq).
    assert (Hl : forall p, occurs (leading p) s = false).
    { intros p. destruct (occurs (leading p) s) eqn:E; [|reflexivity].
      apply occurs_leading_bare in E. rewrite Hb in E. discriminate. }
    assert (Ht : forall p, occurs (trailing p) s = false).
    { intros p. destruct (occurs (trailing p) s) eqn:E; [|reflexivity].
      apply occurs_trailing_bare in E. rewrite Hb in E. discriminate. }
    repeat split; auto.
  - intros H. decompose [and] H. repeat split; try assumption.
    intros []; assumption.
Qed.

Lemma transform_fixed_iff s : transform s = s <-> clean s = true.
Proof.
  rewrite transform_rules, clean_no_rule_occurs.
  apply run_rules_fixed_iff, rules_ok.
Qed.

(** ** The three forms without the engine *)

Lemma lits_app a b : lits (a ++ b) = lits a ++ lits b.
Proof. apply map_app. Qed.

Lemma match_here_lits_app l re :
  forall s,
    match_here (lits l ++ re) s
    = match strip_prefix l s with
      | Some s1 => match_here re s1
      | None => None
      end.
Proof.
  induction l as [|c l IH]; intros s; [reflexivity|].
  cbn [lits List.map app strip_prefix]. fold (lits l).
  destruct s as [|x s]; [reflexivity|].
  rewrite match_here_lit. destruct (x =? c); [apply IH|reflexivity].
Qed.

Lemma match_here_lits l s : match_here (lits l) s = strip_prefix l s.
Proof.
  rewrite <- (app_nil_r (lits l)), match_here_lits_app.
  destruct (strip_prefix l s); reflexivity.
Qed.

Lemma span_nil f s r : span f s = ([], r) -> r = s.
Proof.
  destruct s as [|x s]; cbn [span].
  - intros [= <-]. reflexivity.
  - destruct (f x); [destruct (span f s); discriminate|].
    intros [= <-]. reflexivity.
Qed.

Lemma span_cons_head f s y v r : span f s = (y :: v, r) ->
  exists s', s = y :: s' /\ f y = true.
Proof.
  destruct s as [|x s]; cbn [span]; [discriminate|].
  destruct (f x) eqn:E; [|discriminate].
  destruct (span f s). intros [= <- _ _]. eauto.
Qed.

(** Giving characters back never helps when the literal after the class
    starts outside the class: the greedy run decides. *)
Lemma match_here_plus_lits f post :
  stops_before f post = true ->
  forall s,
    match_here (Plus f :: lits post) s
    = match span f s with
      | ([], _) => None
      | (_ :: _, s2) => strip_prefix post s2
      end.
Proof.
  intros Hstop. induction s as [|x s IH]; [reflexivity|].
  rewrite match_here_plus. cbn [span].
  destruct (f x); [|reflexivity].
  rewrite IH. destruct (span f s) as [[|y v] r] eqn:E.
  - apply span_nil in E. subst r. apply match_here_lits.
  - destruct (strip_prefix post r) eqn:P; [reflexivity|].
    apply span_cons_head in E as (s' & -> & Hy).
    destruct post as [|c post]; [discriminate|].
    cbn [lits List.map]. rewrite match_here_lit.
    destruct (y =? c) eqn:Eyc; [|reflexivity].
    apply N.eqb_eq in Eyc. subst c. cbn [stops_before] in Hstop.
    rewrite Hy in Hstop. discriminate.
Qed.

Lemma match_here_form pre f post s :
  stops_before f post = true ->
  match_here (lits pre ++ Plus f :: lits post) s = form_match pre f post s.
Proof.
  intros Hstop. rewrite match_here_lits_app. unfold form_match.
  destruct (strip_prefix pre s); [|reflexivity].
  apply match_here_plus_lits, Hstop.
Qed.

Lemma leading_form p s :
  match_here (leading p) s = form_match (separator ++ prefix p) (cls p) [] s.
Proof.
  unfold leading, bare. rewrite app_assoc, <- lits_app.
  apply (match_here_form _ _ []). reflexivity.
Qed.

Lemma trailing_form p s :
  match_here (trailing p) s = form_match (prefix p) (cls p) separator s.
Proof.
  unfold trailing, bare. rewrite <- app_assoc.
  apply (match_here_form _ _ separator). destruct p; reflexivity.
Qed.

Lemma bare_form p s :
  match_here (bare p) s = form_match (prefix p) (cls p) [] s.
Proof. apply (match_here_form _ _ []). reflexivity. Qed.

Lemma leading_nonempty p : leading p <> [].
Proof. discriminate. Qed.

Lemma trailing_nonempty p : trailing p <> [].
Proof. destruct p; discriminate. Qed.

(** One step of a global replacement, read off the match. *)
Lemma sub_cons re repl c s :
  re <> [] ->
  sub re repl (c :: s)
  = match match_here re (c :: s) with
    | Some rest => repl ++ sub re repl rest
    | None => c :: sub re repl s
    end.
Proof.
  intros Hre. destruct (match_here re (c :: s)) eqn:E.
  - apply sub_cons_match; assumption.
  - apply sub_cons_nomatch; assumption.
Qed.

Lemma remove_forms p t :
  remove p t = sub (bare p) [] (sub (trailing p) [] (sub (leading p) [] t)).
Proof. destruct p; reflexivity. Qed.

(** ** Characters no pattern can consume *)

Lemma match_here_avoids d re :
  avoids d re = true ->
  forall a b,
    match_here re (a ++ d :: b)
    = option_map (fun r => r ++ d :: b) (match_here re a).
Proof.
  induction re as [|[c|f] re IH]; intros Hav a b.
  - reflexivity.
  - cbn [avoids] in Hav. apply andb_prop in Hav as [Hc Hre].
    apply negb_true_iff in Hc.
    destruct a as [|x a]; cbn [app]; rewrite ?match_here_lit.
    + rewrite N.eqb_sym, Hc. reflexivity.
    + destruct (x =? c); [apply IH; assumption|reflexivity].
  - cbn [avoids] in Hav. apply andb_prop in Hav as [Hc Hre].
    apply negb_true_iff in Hc.
    induction a as [|x a IHa]; cbn [app]; rewrite match_here_plus.
    + rewrite Hc. reflexivity.
    + rewrite match_here_plus. destruct (f x); [|reflexivity].
      rewrite IHa. destruct (match_here (Plus f :: re) a); [reflexivity|].
      apply IH; assumption.
Qed.

(** The same when only the first literal may be [d]. *)
Lemma match_here_lit_avoids d c re :
  avoids d re = true ->
  forall x a b,
    match_here (Lit c :: re) (x :: a ++ d :: b)
    = option_map (fun r => r ++ d :: b) (match_here (Lit c :: re) (x :: a)).
Proof.
  intros Hav x a b. rewrite !match_here_lit.
  destruct (x =? c); [apply match_here_avoids; assumption|reflexivity].
Qed.

(** Scanning [a] in [a ++ d :: b] is scanning [a] alone. *)
Lemma sub_scan_lit d c re repl :
  avoids d re = true ->
  forall a b : text,
    sub (Lit c :: re) repl (a ++ d :: b)
    = sub (Lit c :: re) repl a ++ sub (Lit c :: re) repl (d :: b).
Proof.
  intros Hav a b. induction a as [a IH] using text_length_ind.
  destruct a as [|x a]; [reflexivity|].
  cbn [app].
  rewrite (sub_cons _ _ x (a ++ d :: b)), (sub_cons _ _ x a) by discriminate.
  rewrite (match_here_lit_avoids _ _ _ Hav).
  destruct (match_here (Lit c :: re) (x :: a)) as [r|] eqn:E; cbn [option_map].
  - rewrite IH, app_assoc; [reflexivity|].
    apply (match_here_shorter (Lit c :: re) x a r); [discriminate|exact E].
  - rewrite IH; [reflexivity|simpl; lia].
Qed.

Lemma sub_split_at d re repl :
  avoids d re = true -> re <> [] ->
  forall a b : text,
    sub re repl (a ++ d :: b) = sub re repl a ++ d :: sub re repl b.
Proof.
  intros Hav Hre a b. induction a as [a IH] using text_length_ind.
  destruct a as [|x a].
  - cbn [app]. rewrite sub_cons by assumption.
    change (d :: b) with ([] ++ d :: b) at 1.
    rewrite (match_here_avoids _ _ Hav).
    destruct re as [|at0 re]; [congruence|].
    rewrite match_here_nil_text. reflexivity.
  - cbn [app].
    rewrite (sub_cons _ _ x (a ++ d :: b)), (sub_cons _ _ x a) by assumption.
    change (x :: a ++ d :: b) with ((x :: a) ++ d :: b).
    rewrite (match_here_avoids _ _ Hav).
    destruct (match_here re (x :: a)) as [r|] eqn:E; cbn [option_map].
    + rewrite IH, app_assoc; [reflexivity|].
      apply (match_here_shorter _ _ _ _ Hre E).
    + cbn [app]. rewrite IH; [reflexivity|simpl; lia].
Qed.

Lemma run_rules_split_at d rs :
  forallb (rule_avoids d) rs = true ->
  forall a b,
    run_rules rs (a ++ d :: b) = run_rules rs a ++ d :: run_rules rs b.
Proof.
  induction rs as [|r rs IH]; intros H a b; [reflexivity|].
  cbn [forallb] in H. apply andb_prop in H as [Hr Hrs].
  apply andb_prop in Hr as [Hav Hne].
  rewrite !run_rules_cons, sub_split_at; [apply IH; assumption|assumption|].
  destruct (fst r); [discriminate|congruence].
Qed.

(** What a match consumed contains no character the pattern avoids. *)
Lemma match_here_consumed d re :
  avoids d re = true ->
  forall s r, match_here re s = Some r ->
  exists m, s = m ++ r /\ count_occ N.eq_dec m d = 0%nat.
Proof.
  induction re as [|[c|f] re IH]; intros Hav s r H.
  - injection H as <-. exists []. split; reflexivity.
  - cbn [avoids] in Hav. apply andb_prop in Hav as [Hc Hre].
    apply negb_true_iff, N.eqb_neq in Hc.
    destruct s as [|x s]; [discriminate|]. rewrite match_here_lit in H.
    destruct (x =? c) eqn:E; [|discriminate]. apply N.eqb_eq in E. subst x.
    destruct (IH Hre _ _ H) as (m & -> & Hm).
    exists (c :: m). split; [reflexivity|].
    rewrite count_occ_cons_neq; assumption.
  - cbn [avoids] in Hav. apply andb_prop in Hav as [Hc Hre].
    apply negb_true_iff in Hc.
    revert r H. induction s as [|x s IHs]; intros r H; [discriminate|].
    rewrite match_here_plus in H. destruct (f x) eqn:Ex; [|discriminate].
    assert (Hx : x <> d) by (intros ->; congruence).
    destruct (match_here (Plus f :: re) s) as [r1|] eqn:E.
    + injection H as <-. destruct (IHs _ eq_refl) as (m & -> & Hm).
      exists (x :: m). split; [reflexivity|].
      rewrite count_occ_cons_neq; assumption.
    + destruct (IH Hre _ _ H) as (m & -> & Hm).
      exists (x :: m). split; [reflexivity|].
      rewrite count_occ_cons_neq; assumption.
Qed.

Lemma sub_count_occ d re repl :
  avoids d re = true -> re <> [] -> count_occ N.eq_dec repl d = 0%nat ->
  forall s,
    count_occ N.eq_dec (sub re repl s) d = count_occ N.eq_dec s d.
Proof.
  intros Hav Hre Hrepl s. induction s as [s IH] using text_length_ind.
  destruct s as [|x s]; [reflexivity|].
  rewrite sub_cons by assumption.
  destruct (match_here re (x :: s)) as [r|] eqn:E.
  - pose proof (match_here_shorter _ _ _ _ Hre E) as Hlt.
    destruct (match_here_consumed _ _ Hav _ _ E) as (m & Hm & Hc).
    rewrite Hm, !count_occ_app, IH by assumption.
    unfold char, text in *. lia.
  - destruct (N.eq_dec x d) as [->|Hx].
    + rewrite !count_occ_cons_eq by reflexivity. f_equal.
      apply IH. simpl; lia.
    + rewrite !count_occ_cons_neq by assumption. apply IH. simpl; lia.
Qed.

Lemma count_occ_not_existsb d l :
  existsb (N.eqb d) l = false -> count_occ N.eq_dec l d = 0%nat.
Proof.
  induction l as [|x l IH]; [reflexivity|]. cbn [existsb].
  intros H. apply orb_false_iff in H as [Hx Hl]. apply N.eqb_neq in Hx.
  rewrite count_occ_cons_neq by congruence. auto.
Qed.

Lemma run_rules_count_occ d rs :
  forallb (rule_keeps d) rs = true ->
  forall s,
    count_occ N.eq_dec (run_rules rs s) d = count_occ N.eq_dec s d.
Proof.
  induction rs as [|r rs IH]; intros H s; [reflexivity|].
  cbn [forallb] in H. apply andb_prop in H as [Hr Hrs].
  apply andb_prop in Hr as [Hr Hrepl]. apply andb_prop in Hr as [Hav Hne].
  rewrite run_rules_cons, IH by assumption.
  apply sub_count_occ; [assumption| |].
  - destruct (fst r); [discriminate|congruence].
  - apply count_occ_not_existsb, negb_true_iff, Hrepl.
Qed.

(** ** The clean-up step *)

Lemma double_spaces_form s :
  match_here double_spaces s = form_match [SPACE] is_space [] s.
Proof. apply (match_here_form [SPACE] is_space []). reflexivity. Qed.

Lemma collapse_spaces_run s :
  collapse_spaces (SPACE :: s)
  = SPACE :: collapse_spaces (snd (span is_space s)).
Proof.
  induction s as [|x s IH]; [reflexivity|].
  cbn [span]. unfold is_space at 1.
  destruct (x =? SPACE) eqn:E.
  - apply N.eqb_eq in E. subst x.
    change (collapse_spaces (SPACE :: SPACE :: s))
      with (collapse_spaces (SPACE :: s)).
    rewrite IH. destruct (span is_space s). reflexivity.
  - cbn [collapse_spaces snd]. rewrite E. reflexivity.
Qed.

Lemma sub_double_spaces s :
  sub double_spaces [SPACE] s = collapse_spaces s.
Proof.
  induction s as [s IH] using text_length_ind.
  destruct s as [|c s]; [reflexivity|].
  rewrite sub_cons by discriminate.
  pose proof (match_here_length double_spaces (c :: s)) as Hlen.
  rewrite double_spaces_form in *. unfold form_match in *.
  cbn [strip_prefix] in *.
  destruct (c =? SPACE) eqn:Ec.
  - apply N.eqb_eq in Ec. subst c. rewrite collapse_spaces_run.
    destruct (span is_space s) as [[|y v] r] eqn:E; cbn [snd strip_prefix] in *.
    + apply span_nil in E. subst r. rewrite IH by (simpl; lia). reflexivity.
    + specialize (Hlen _ eq_refl). rewrite IH; [reflexivity|simpl in *; lia].
  - cbn [collapse_spaces]. rewrite Ec, IH by (simpl; lia). reflexivity.
Qed.

Lemma semi_quote_match c1 s1 :
  match_here semi_quote (c1 :: s1)
  = match s1 with
    | c2 :: c3 :: s3 =>
        if (c1 =? SEMI) && (c2 =? SPACE) && (c3 =? QUOTE)
        then Some s3 else None
    | _ => None
    end.
Proof.
  unfold semi_quote. rewrite match_here_lit.
  destruct (c1 =? SEMI); destruct s1 as [|c2 [|c3 s3]]; try reflexivity.
  - rewrite match_here_lit. destruct (c2 =? SPACE); reflexivity.
  - rewrite !match_here_lit.
    destruct (c2 =? SPACE); [|reflexivity].
    destruct (c3 =? QUOTE); reflexivity.
Qed.

Lemma sub_semi_quote s :
  sub semi_quote [QUOTE] s = drop_semi_before_quote s.
Proof.
  induction s as [s IH] using text_length_ind.
  destruct s as [|c1 s1]; [reflexivity|].
  rewrite sub_cons by discriminate. rewrite semi_quote_match.
  cbn [drop_semi_before_quote].
  destruct s1 as [|c2 [|c3 s3]];
    try (rewrite IH by (simpl; lia); reflexivity).
  destruct ((c1 =? SEMI) && (c2 =? SPACE) && (c3 =? QUOTE));
    rewrite IH by (simpl; lia); reflexivity.
Qed.

Lemma clean_up_spec x :
  clean_up x = drop_semi_before_quote (collapse_spaces x).
Proof.
  unfold clean_up. rewrite sub_double_spaces, sub_semi_quote. reflexivity.
Qed.

Lemma clean_up_no_occurrence x :
  occurs double_spaces x = false -> occurs semi_quote x = false ->
  clean_up x = x.
Proof.
  intros Hd Hq. unfold clean_up.
  rewrite (sub_no_occurrence _ _ _ Hd). apply sub_no_occurrence, Hq.
Qed.

(** *** A semicolon stays unless spaces and a quote follow *)

Lemma collapse_spaces_split_at d (a b : text) :
  d <> SPACE ->
  collapse_spaces (a ++ d :: b) = collapse_spaces a ++ d :: collapse_spaces b.
Proof.
  intros Hd. rewrite <- !sub_double_spaces.
  apply sub_split_at; [|discriminate].
  apply N.eqb_neq in Hd. unfold double_spaces, is_space. cbn [avoids].
  rewrite N.eqb_sym, Hd. reflexivity.
Qed.

Lemma collapse_spaces_cons_other c s :
  c <> SPACE -> collapse_spaces (c :: s) = c :: collapse_spaces s.
Proof.
  intros H. apply N.eqb_neq in H. cbn [collapse_spaces]. rewrite H.
  reflexivity.
Qed.

Lemma collapse_spaces_cons2 x y s :
  collapse_spaces (x :: y :: s)
  = if x =? SPACE then
      if y =? SPACE then collapse_spaces (y :: s)
      else x :: collapse_spaces (y :: s)
    else x :: collapse_spaces (y :: s).
Proof. reflexivity. Qed.

Lemma collapse_then_quote b :
  spaces_then_quote b = false ->
  match_here [Lit SPACE; Lit QUOTE] (collapse_spaces b) = None.
Proof.
  induction b as [|c b IH]; intros H; [reflexivity|].
  destruct (c =? SPACE) eqn:Ec.
  - apply N.eqb_eq in Ec. subst c.
    destruct b as [|c' b]; [reflexivity|].
    cbn [spaces_then_quote] in H. rewrite N.eqb_refl in H.
    cbn [andb] in H. apply orb_false_iff in H as [Hq Hs].
    destruct (c' =? SPACE) eqn:Ec'.
    + apply N.eqb_eq in Ec'. subst c'.
      change (collapse_spaces (SPACE :: SPACE :: b))
        with (collapse_spaces (SPACE :: b)).
      apply IH. exact Hs.
    + change (collapse_spaces (SPACE :: c' :: b))
        with (if c' =? SPACE then collapse_spaces (c' :: b)
              else SPACE :: collapse_spaces (c' :: b)).
      rewrite Ec'. apply N.eqb_neq in Ec'.
      rewrite collapse_spaces_cons_other by assumption.
      rewrite !match_here_lit, N.eqb_refl, Hq. reflexivity.
  - apply N.eqb_neq in Ec. rewrite collapse_spaces_cons_other by assumption.
    rewrite match_here_lit. apply N.eqb_neq in Ec. rewrite Ec. reflexivity.
Qed.

Lemma clean_up_keeps_semicolon (a b : text) :
  spaces_then_quote b = false ->
  clean_up (a ++ SEMI :: b) = clean_up a ++ SEMI :: clean_up b.
Proof.
  intros H. unfold clean_up.
  rewrite !sub_double_spaces, collapse_spaces_split_at by discriminate.
  unfold semi_quote. rewrite sub_scan_lit by reflexivity.
  f_equal. rewrite sub_cons by discriminate.
  rewrite match_here_lit, N.eqb_refl, collapse_then_quote by assumption.
  reflexivity.
Qed.

(** *** A single space stays unless it stands between semicolon and quote *)

Lemma ends_with_cons c x y s :
  ends_with c (x :: y :: s) = ends_with c (y :: s).
Proof. reflexivity. Qed.

Lemma collapse_spaces_single (a b : text) :
  ends_with SPACE a = false -> starts_with SPACE b = false ->
  collapse_spaces (a ++ SPACE :: b)
  = collapse_spaces a ++ SPACE :: collapse_spaces b.
Proof.
  intros Ha Hb. induction a as [|x a IH].
  - cbn [app]. rewrite collapse_spaces_run.
    destruct b as [|c b]; [reflexivity|].
    cbn [starts_with] in Hb. cbn [span]. unfold is_space at 1.
    rewrite Hb. reflexivity.
  - destruct a as [|y a].
    + cbn [ends_with] in Ha. apply N.eqb_neq in Ha.
      specialize (IH eq_refl). cbn [app] in *.
      rewrite (collapse_spaces_cons_other x (SPACE :: b)),
        (collapse_spaces_cons_other x []) by assumption.
      rewrite IH; reflexivity.
    + rewrite ends_with_cons in Ha. specialize (IH Ha).
      cbn [app] in *. rewrite !(collapse_spaces_cons2 x y).
      destruct (x =? SPACE); [destruct (y =? SPACE)|]; rewrite IH;
        reflexivity.
Qed.

Lemma collapse_spaces_nonempty c s : collapse_spaces (c :: s) <> [].
Proof.
  revert c. induction s as [|y s IH]; intros c.
  - cbn [collapse_spaces]. destruct (c =? SPACE); discriminate.
  - rewrite collapse_spaces_cons2.
    destruct (c =? SPACE); [destruct (y =? SPACE)|]; try discriminate.
    apply IH.
Qed.

Lemma ends_with_cons_nonempty c x s :
  s <> [] -> ends_with c (x :: s) = ends_with c s.
Proof. destruct s; [congruence|reflexivity]. Qed.

Lemma ends_with_collapse_spaces c a :
  ends_with c (collapse_spaces a) = ends_with c a.
Proof.
  induction a as [|x a IH]; [reflexivity|].
  destruct a as [|y a].
  - cbn [collapse_spaces]. destruct (x =? SPACE); reflexivity.
  - rewrite ends_with_cons, <- IH.
    assert (N : collapse_spaces (y :: a) <> [])
      by apply collapse_spaces_nonempty.
    rewrite collapse_spaces_cons2.
    destruct (x =? SPACE); [destruct (y =? SPACE)|];
      rewrite ?ends_with_cons_nonempty by assumption; reflexivity.
Qed.

Lemma starts_with_collapse_spaces c b :
  starts_with SPACE b = false ->
  starts_with c (collapse_spaces b) = starts_with c b.
Proof.
  destruct b as [|x b]; [reflexivity|]. cbn [starts_with]. intros H.
  apply N.eqb_neq in H. rewrite collapse_spaces_cons_other by assumption.
  reflexivity.
Qed.

Lemma drop_semi_space_head b :
  drop_semi_before_quote (SPACE :: b) = SPACE :: drop_semi_before_quote b.
Proof.
  cbn [drop_semi_before_quote]. destruct b as [|c2 [|c3 s3]]; reflexivity.
Qed.

Lemma drop_semi_single (a b : text) :
  ends_with SEMI a && starts_with QUOTE b = false ->
  drop_semi_before_quote (a ++ SPACE :: b)
  = drop_semi_before_quote a ++ SPACE :: drop_semi_before_quote b.
Proof.
  intros H. induction a as [a IH] using text_length_ind.
  destruct a as [|x [|y [|z a]]].
  - apply drop_semi_space_head.
  - cbn [app]. cbn [ends_with] in H.
    assert (E : drop_semi_before_quote (x :: SPACE :: b)
                = x :: drop_semi_before_quote (SPACE :: b)).
    { cbn [drop_semi_before_quote]. destruct b as [|c3 s3]; [reflexivity|].
      cbn [starts_with] in H. rewrite N.eqb_refl.
      destruct (x =? SEMI); [|reflexivity]. cbn [andb] in *. rewrite H.
      reflexivity. }
    rewrite E, drop_semi_space_head. reflexivity.
  - assert (E : drop_semi_before_quote ([x; y] ++ SPACE :: b)
                = x :: drop_semi_before_quote ([y] ++ SPACE :: b)).
    { cbn [app drop_semi_before_quote].
      rewrite andb_false_r. reflexivity. }
    rewrite E, (IH [y]); [reflexivity|simpl; lia|exact H].
  - assert (Hza : ends_with SEMI (z :: a) && starts_with QUOTE b = false)
      by exact H.
    assert (Hyza : ends_with SEMI (y :: z :: a) && starts_with QUOTE b = false)
      by exact H.
    change (drop_semi_before_quote ((x :: y :: z :: a) ++ SPACE :: b))
      with (if (x =? SEMI) && (y =? SPACE) && (z =? QUOTE)
            then QUOTE :: drop_semi_before_quote (a ++ SPACE :: b)
            else x :: drop_semi_before_quote ((y :: z :: a) ++ SPACE :: b)).
    change (drop_semi_before_quote (x :: y :: z :: a))
      with (if (x =? SEMI) && (y =? SPACE) && (z =? QUOTE)
            then QUOTE :: drop_semi_before_quote a
            else x :: drop_semi_before_quote (y :: z :: a)).
    destruct ((x =? SEMI) && (y =? SPACE) && (z =? QUOTE)) eqn:E.
    + rewrite IH; [reflexivity|simpl; lia|].
      destruct a as [|w a]; [|exact H].
      apply andb_prop in E as [_ E]. apply N.eqb_eq in E. subst z.
      reflexivity.
    + rewrite IH; [reflexivity|simpl; lia|exact Hyza].
Qed.

Lemma clean_up_keeps_single_space (a b : text) :
  ends_with SPACE a = false -> starts_with SPACE b = false ->
  ends_with SEMI a && starts_with QUOTE b = false ->
  clean_up (a ++ SPACE :: b) = clean_up a ++ SPACE :: clean_up b.
Proof.
  intros Ha Hb H. rewrite !clean_up_spec.
  rewrite collapse_spaces_single by assumption.
  apply drop_semi_single.
  rewrite ends_with_collapse_spaces, starts_with_collapse_spaces; assumption.
Qed.

(** *** The output has no run of two spaces *)

Lemma has_double_space_cons2 x y s :
  has_double_space (x :: y :: s)
  = ((x =? SPACE) && (y =? SPACE)) || has_double_space (y :: s).
Proof. reflexivity. Qed.

Lemma double_spaces_match2 x y s :
  match_here double_spaces (x :: y :: s) = None
  <-> (x =? SPACE) && (y =? SPACE) = false.
Proof.
  unfold double_spaces. rewrite match_here_lit.
  destruct (x =? SPACE); cbn [andb]; [|tauto].
  rewrite match_here_plus. unfold is_space at 1.
  destruct (y =? SPACE); [|tauto].
  destruct (match_here [Plus is_space] s); cbn; split; congruence.
Qed.

Lemma occurs_double_spaces s : occurs double_spaces s = has_double_space s.
Proof.
  induction s as [|x s IH]; [reflexivity|].
  destruct s as [|y s].
  - cbn [occurs has_double_space]. unfold double_spaces.
    rewrite match_here_lit. destruct (x =? SPACE); reflexivity.
  - rewrite has_double_space_cons2, <- IH.
    destruct ((x =? SPACE) && (y =? SPACE)) eqn:E.
    + cbn [occurs orb].
      destruct (match_here double_spaces (x :: y :: s)) eqn:M;
        [reflexivity|].
      apply (proj1 (double_spaces_match2 x y s)) in M. congruence.
    + apply (proj2 (double_spaces_match2 x y s)) in E.
      rewrite (occurs_cons_nomatch _ _ _ E). reflexivity.
Qed.

Lemma collapse_spaces_head c s :
  starts_with SPACE (collapse_spaces (c :: s)) = (c =? SPACE).
Proof.
  revert c. induction s as [|y s IH]; intros c.
  - cbn [collapse_spaces]. destruct (c =? SPACE) eqn:E; cbn [starts_with];
      exact E.
  - rewrite collapse_spaces_cons2.
    destruct (c =? SPACE) eqn:E; [destruct (y =? SPACE) eqn:E'|];
      cbn [starts_with]; rewrite ?E; try reflexivity.
    rewrite IH. exact E'.
Qed.

Lemma has_double_space_cons x s :
  has_double_space (x :: s)
  = ((x =? SPACE) && starts_with SPACE s) || has_double_space s.
Proof.
  destruct s as [|y s]; [|reflexivity].
  cbn [has_double_space starts_with]. rewrite andb_false_r. reflexivity.
Qed.

Lemma collapse_spaces_no_double s :
  has_double_space (collapse_spaces s) = false.
Proof.
  induction s as [|x s IH]; [reflexivity|].
  destruct s as [|y s].
  - cbn [collapse_spaces]. destruct (x =? SPACE); reflexivity.
  - rewrite collapse_spaces_cons2.
    destruct (x =? SPACE) eqn:E; [destruct (y =? SPACE) eqn:E'|];
      try exact IH;
      rewrite has_double_space_cons, collapse_spaces_head, IH, ?E, ?E';
      reflexivity.
Qed.

Lemma drop_semi_no_double (s : text) :
  has_double_space s = false ->
  has_double_space (drop_semi_before_quote s) = false
  /\ (starts_with SPACE (drop_semi_before_quote s) = true ->
      starts_with SPACE s = true).
Proof.
  induction s as [s IH] using text_length_ind. intros H.
  destruct s as [|c1 s1]; [split; [reflexivity|discriminate]|].
  rewrite has_double_space_cons in H.
  apply orb_false_iff in H as [H1 H2].
  assert (K : drop_semi_before_quote (c1 :: s1)
              = c1 :: drop_semi_before_quote s1
              \/ exists c2 s3, s1 = c2 :: QUOTE :: s3
                   /\ drop_semi_before_quote (c1 :: s1)
                      = QUOTE :: drop_semi_before_quote s3).
  { cbn [drop_semi_before_quote]. destruct s1 as [|c2 [|c3 s3]]; auto.
    destruct ((c1 =? SEMI) && (c2 =? SPACE) && (c3 =? QUOTE)) eqn:E; auto.
    right. apply andb_prop in E as [_ E]. apply N.eqb_eq in E. subst c3.
    eauto. }
  destruct K as [->|(c2 & s3 & -> & ->)].
  - destruct (IH s1 ltac:(simpl; lia) H2) as [D S].
    split; [|intros E; exact E].
    rewrite has_double_space_cons, D, orb_false_r.
    destruct (c1 =? SPACE); [|reflexivity]. cbn [andb] in *.
    destruct (starts_with SPACE (drop_semi_before_quote s1)) eqn:E;
      [|reflexivity].
    rewrite (S eq_refl) in H1. discriminate.
  - rewrite !has_double_space_cons in H2.
    apply orb_false_iff in H2 as [_ H2].
    apply orb_false_iff in H2 as [_ H2].
    destruct (IH s3 ltac:(simpl; lia) H2) as [D _].
    split; [|discriminate].
    rewrite has_double_space_cons, D. reflexivity.
Qed.

Lemma clean_up_no_double_spaces x :
  occurs double_spaces (clean_up x) = false.
Proof.
  rewrite occurs_double_spaces, clean_up_spec.
  apply drop_semi_no_double, collapse_spaces_no_double.
Qed.

(** * The claims *)

Lemma leading_spec_regex p :
  lits (str "; ") ++ lits (property_name p) ++ lits (str ": ") ++ value_pattern p
  = leading p.
Proof. destruct p; vm_compute; reflexivity. Qed.

Lemma trailing_spec_regex p :
  (lits (property_name p) ++ lits (str ": ") ++ value_pattern p)
    ++ lits (str "; ")
  = trailing p.
Proof. destruct p; vm_compute; reflexivity. Qed.

Lemma bare_spec_regex p :
  lits (property_name p) ++ lits (str ": ") ++ value_pattern p = bare p.
Proof. destruct p; vm_compute; reflexivity. Qed.

Lemma remove_strip_property p t :
  remove p t = strip_property t (property_name p) (value_pattern p).
Proof.
  unfold strip_property.
  rewrite leading_spec_regex, trailing_spec_regex, bare_spec_regex.
  apply remove_forms.
Qed.

Lemma sub_removal_step re m :
  re <> [] -> (forall s, match_here re s = m s) ->
  forall s, sub re [] s = global_removal_step m (sub re []) s.
Proof.
  intros Hre Hm [|c s]; [reflexivity|].
  rewrite sub_cons by assumption. cbn [global_removal_step].
  rewrite Hm. reflexivity.
Qed.

(** C1.  Each of the four strip blocks is the strip step of the
    specification for its property name and value pattern: three global
    removals, the leading-separator form first, then the
    trailing-separator form, then the bare form.  Each removal scans the
    whole text from the left and drops, at every place where its form
    starts, the separator and name literals together with the longest
    run of value characters (digits and periods, or hexadecimal digits
    after the number sign). *)
Theorem strip_step_three_forms (p : property) (t : text) :
  remove p t = strip_property t (property_name p) (value_pattern p)
  /\ remove p t
     = sub (bare p) [] (sub (trailing p) [] (sub (leading p) [] t))
  /\ sub (leading p) [] t
     = global_removal_step
         (form_match (str "; " ++ prefix p) (cls p) [])
         (sub (leading p) []) t
  /\ sub (trailing p) [] t
     = global_removal_step
         (form_match (prefix p) (cls p) (str "; "))
         (sub (trailing p) []) t
  /\ sub (bare p) [] t
     = global_removal_step
         (form_match (prefix p) (cls p) [])
         (sub (bare p) []) t.
Proof.
  split; [apply remove_strip_property|].
  split; [apply remove_forms|].
  split; [|split].
  - apply sub_removal_step; [apply leading_nonempty|apply leading_form].
  - apply sub_removal_step; [apply trailing_nonempty|apply trailing_form].
  - apply sub_removal_step; [apply bare_nonempty|apply bare_form].
Qed.

(** C2, as stated, fails: stripping can bring the two halves of a token
    together, and so can the clean-up with its artifact. *)
Lemma transform_not_idempotent :
  transform (transform (str "metalmetalness: 1ness: 1"))
  <> transform (str "metalmetalness: 1ness: 1")
  /\ transform (transform (str "a; ; " ++ [QUOTE]))
     <> transform (str "a; ; " ++ [QUOTE]).
Proof. split; vm_compute; discriminate. Qed.

(** C2, amended.  A second run changes nothing exactly when the output
    of the first run is clean, that is, when it holds no token and no
    semicolon-space-quote (a run of two spaces it never holds).  On clean
    text the transform is the identity. *)
Theorem transform_idempotent_iff_clean (x : text) :
  (transform (transform x) = transform x <-> clean (transform x) = true)
  /\ (clean (transform x) = true <->
      has_token (transform x) = false
      /\ occurs semi_quote (transform x) = false)
  /\ occurs double_spaces (transform x) = false
  /\ (clean x = true -> transform x = x).
Proof.
  assert (D : occurs double_spaces (transform x) = false)
    by apply clean_up_no_double_spaces.
  split; [apply transform_fixed_iff|].
  split; [|split; [exact D|apply transform_fixed_iff]].
  unfold clean. rewrite D, !andb_true_iff, !negb_true_iff. tauto.
Qed.

Lemma transform_idempotent_iff_clean_witness :
  clean (str "material=" ++ [QUOTE; QUOTE]) = true
  /\ transform (str "material=" ++ [QUOTE; QUOTE])
     = str "material=" ++ [QUOTE; QUOTE].
Proof.
  split; [reflexivity|].
  apply (transform_idempotent_iff_clean (str "material=" ++ [QUOTE; QUOTE])).
  reflexivity.
Defined.

Lemma strip_no_token x : has_token x = false -> strip x = x.
Proof.
  intros H. rewrite has_token_false in H.
  assert (R : forall p, remove p x = x).
  { intros p. rewrite remove_forms.
    assert (Hl : occurs (leading p) x = false).
    { destruct (occurs (leading p) x) eqn:E; [|reflexivity].
      apply occurs_leading_bare in E. rewrite H in E. discriminate. }
    assert (Ht : occurs (trailing p) x = false).
    { destruct (occurs (trailing p) x) eqn:E; [|reflexivity].
      apply occurs_trailing_bare in E. rewrite H in E. discriminate. }
    rewrite (sub_no_occurrence _ _ _ Hl), (sub_no_occurrence _ _ _ Ht).
    apply sub_no_occurrence, H. }
  unfold strip.
  rewrite (R Metalness : remove_metalness x = x).
  rewrite (R Roughness : remove_roughness x = x).
  rewrite (R Emissive : remove_emissive x = x).
  exact (R EmissiveIntensity).
Qed.

(** C4, as stated, fails: text without any token still goes through
    the clean-up. *)
Lemma transform_changes_token_free_text :
  has_token (str "a  b") = false /\ transform (str "a  b") <> str "a  b".
Proof. split; [reflexivity|vm_compute; discriminate]. Qed.

(** C4, amended.  On text without any of the four tokens the strip
    substitutions change nothing, so the transform is the clean-up step
    alone; the text comes back unchanged when it has, besides, no run of
    two spaces and no semicolon-space-quote. *)
Theorem transform_token_free (x : text) :
  has_token x = false ->
  strip x = x
  /\ transform x = clean_up x
  /\ (occurs double_spaces x = false -> occurs semi_quote x = false ->
      transform x = x).
Proof.
  intros H. pose proof (strip_no_token x H) as S.
  unfold transform. rewrite S. repeat split.
  apply clean_up_no_occurrence.
Qed.

Lemma transform_token_free_witness :
  has_token (str "<a-box color=" ++ QUOTE :: str "red" ++ [QUOTE]) = false
  /\ transform (str "<a-box color=" ++ QUOTE :: str "red" ++ [QUOTE])
     = str "<a-box color=" ++ QUOTE :: str "red" ++ [QUOTE].
Proof.
  split; [reflexivity|].
  apply (transform_token_free
           (str "<a-box color=" ++ QUOTE :: str "red" ++ [QUOTE]));
    reflexivity.
Defined.

(** C5, as stated, fails for semicolons: the second substitution runs on
    the text with the runs already collapsed, so a semicolon followed by
    two spaces and a quote goes too, although no
    semicolon-space-quote stands in the input. *)
Lemma clean_up_drops_semicolon_before_run :
  strip_prefix [SPACE; QUOTE] [SPACE; SPACE; QUOTE] = None
  /\ occurs semi_quote (SEMI :: [SPACE; SPACE; QUOTE]) = false
  /\ clean_up (SEMI :: [SPACE; SPACE; QUOTE]) = [QUOTE]
  /\ clean_up ([] ++ SEMI :: [SPACE; SPACE; QUOTE])
     <> clean_up [] ++ SEMI :: clean_up [SPACE; SPACE; QUOTE].
Proof. repeat split; vm_compute; discriminate. Qed.

(** C5, amended.  The clean-up step turns every run of two or more
    spaces into one space and then every semicolon-space-quote into a
    quote.  It is the identity on text without such a run and without
    semicolon-space-quote.  A single space stays where it is unless it
    stands between a semicolon and a quote, and a semicolon stays where
    it is unless one or more spaces and then a quote follow it; the text
    on either side is cleaned up on its own. *)
Theorem clean_up_only_runs_and_artifact :
  (forall x, clean_up x = drop_semi_before_quote (collapse_spaces x))
  /\ (forall x, occurs double_spaces x = false ->
                occurs semi_quote x = false -> clean_up x = x)
  /\ (forall a b, ends_with SPACE a = false -> starts_with SPACE b = false ->
                  ends_with SEMI a && starts_with QUOTE b = false ->
                  clean_up (a ++ SPACE :: b)
                  = clean_up a ++ SPACE :: clean_up b)
  /\ (forall a b, spaces_then_quote b = false ->
                  clean_up (a ++ SEMI :: b)
                  = clean_up a ++ SEMI :: clean_up b).
Proof.
  split; [exact clean_up_spec|].
  split; [exact clean_up_no_occurrence|].
  split; [exact clean_up_keeps_single_space|exact clean_up_keeps_semicolon].
Qed.

Lemma clean_up_only_runs_and_artifact_witness :
  clean_up (str "a; b c") = str "a; b c"
  /\ clean_up (str "a;  b" ++ SPACE :: str "c  d")
     = clean_up (str "a;  b") ++ SPACE :: clean_up (str "c  d")
  /\ clean_up (str "x  y" ++ SEMI :: str " z; " ++ [QUOTE])
     = clean_up (str "x  y") ++ SEMI :: clean_up (str " z; " ++ [QUOTE]).
Proof.
  destruct clean_up_only_runs_and_artifact as (_ & Hid & Hsp & Hsemi).
  split; [apply Hid; reflexivity|].
  split; [apply Hsp; reflexivity|apply Hsemi; reflexivity].
Defined.

Lemma rules_keep_newline : forallb (rule_keeps NEWLINE) rules = true.
Proof. vm_compute. reflexivity. Qed.

Lemma rules_avoid_newline : forallb (rule_avoids NEWLINE) rules = true.
Proof. vm_compute. reflexivity. Qed.

(** C9.  The transform keeps every newline: the output has as many
    newline characters as the input, and the transform of two texts
    joined by a newline is the two transforms joined by a newline, so
    the lines stay in their order and none is merged or split. *)
Theorem transform_preserves_newlines (x a b : text) :
  count_occ N.eq_dec (transform x) NEWLINE = count_occ N.eq_dec x NEWLINE
  /\ transform (a ++ NEWLINE :: b) = transform a ++ NEWLINE :: transform b.
Proof.
  split.
  - rewrite (transform_rules x).
    apply run_rules_count_occ, rules_keep_newline.
  - rewrite (transform_rules (a ++ NEWLINE :: b)), (transform_rules a),
      (transform_rules b).
    apply run_rules_split_at, rules_avoid_newline.
Qed.

(** C10.  The transform never lengthens the text: every one of the
    fourteen replacements is shorter than the shortest match of its
    pattern, no substitution lengthens its input, and so the output is at
    most as long as the input. *)
Theorem transform_never_lengthens (x : text) :
  (List.length (transform x) <= List.length x)%nat
  /\ List.length rules = 14%nat
  /\ forallb rule_ok rules = true
  /\ Forall (fun r => forall s,
               (List.length (sub (fst r) (snd r) s) <= List.length s)%nat)
            rules.
Proof.
  split; [rewrite transform_rules; apply run_rules_length_le, rules_ok|].
  split; [reflexivity|]. split; [apply rules_ok|].
  apply Forall_forall. intros r Hr s.
  pose proof rules_ok as Hok. rewrite forallb_forall in Hok.
  specialize (Hok r Hr). apply rule_ok_spec in Hok.
  apply sub_length_le; [lia|]. destruct (fst r); [simpl in Hok; lia|congruence].
Qed.
(** ** The program *)

Lemma main_unfold w :
  main w
  = match index_html w with
    | None => (inr FileNotFoundError, w)
    | Some bs =>
        if readable w then
          match utf8_decode bs with
          | None => (inr UnicodeDecodeError, w)
          | Some raw =>
              let out := transform (universal_newlines raw) in
              if writable w then
                match utf8_encode (write_newlines (os w) out) with
                | None => (inr UnicodeEncodeError, set_file [] (log Read w))
                | Some bytes =>
                    if forallb (stdout_encodes w) status_fixed then
                      if forallb (stdout_encodes w) status_removed then
                        (inl tt,
                         mkWorld (Some bytes) (readable w) (writable w)
                           (os w) (stdout_encodes w)
                           (trace w ++ [Read; Wrote out;
                                        Printed status_fixed;
                                        Printed status_removed]))
                      else
                        (inr UnicodeEncodeError,
                         mkWorld (Some bytes) (readable w) (writable w)
                           (os w) (stdout_encodes w)
                           (trace w ++ [Read; Wrote out;
                                        Printed status_fixed]))
                    else
                      (inr UnicodeEncodeError,
                       mkWorld (Some bytes) (readable w) (writable w)
                         (os w) (stdout_encodes w)
                         (trace w ++ [Read; Wrote out]))
                end
              else (inr PermissionError, log Read w)
          end
        else (inr PermissionError, w)
    end.
Proof.
  unfold main, bind, read_file, write_file, print, log, set_file.
  destruct (index_html w) as [bs|]; [|reflexivity].
  destruct (readable w); [|reflexivity].
  destruct (utf8_decode bs) as [raw|]; [|reflexivity].
  cbv zeta. generalize (transform (universal_newlines raw)). intros out.
  cbn [index_html readable writable os stdout_encodes trace].
  destruct (writable w); [|reflexivity].
  destruct (utf8_encode (write_newlines (os w) out)) as [bytes|];
    [|reflexivity].
  cbn [index_html readable writable os stdout_encodes trace].
  destruct (forallb (stdout_encodes w) status_fixed);
    [|rewrite <- !app_assoc; reflexivity].
  cbn [index_html readable writable os stdout_encodes trace].
  destruct (forallb (stdout_encodes w) status_removed);
    rewrite <- !app_assoc; reflexivity.
Qed.

Lemma printed_app a b : printed (a ++ b) = printed a ++ printed b.
Proof. apply flat_map_app. Qed.




(** ** Attribute lists *)

Lemma occurs_false_match re s :
  re <> [] -> occurs re s = false -> match_here re s = None.
Proof.
  intros Hre H. destruct s as [|x s].
  - destruct re; [congruence|apply match_here_nil_text].
  - cbn [occurs] in H. destruct (match_here re (x :: s)); congruence.
Qed.

Lemma match_here_avoided_head d re b :
  avoids d re = true -> re <> [] -> match_here re (d :: b) = None.
Proof.
  intros Hav Hre. change (d :: b) with ([] ++ d :: b).
  rewrite (match_here_avoids _ _ Hav).
  destruct re; [congruence|]. rewrite match_here_nil_text. reflexivity.
Qed.

Lemma occurs_split_at d re :
  avoids d re = true -> re <> [] ->
  forall a b, occurs re (a ++ d :: b) = occurs re a || occurs re b.
Proof.
  intros Hav Hre a b. induction a as [|x a IH].
  - cbn [app]. rewrite occurs_cons_nomatch; [reflexivity|].
    apply match_here_avoided_head; assumption.
  - change ((x :: a) ++ d :: b) with (x :: a ++ d :: b).
    cbn [occurs]. change (x :: a ++ d :: b) with ((x :: a) ++ d :: b).
    rewrite (match_here_avoids _ _ Hav).
    destruct (match_here re (x :: a)); cbn [option_map]; [reflexivity|].
    exact IH.
Qed.

Lemma match_here_lit_in c re :
  In (Lit c) re -> forall s r, match_here re s = Some r -> In c s.
Proof.
  induction re as [|[c0|f] re IH]; intros Hin s r H.
  - destruct Hin.
  - destruct s as [|x s]; [discriminate|]. rewrite match_here_lit in H.
    destruct (x =? c0) eqn:E; [|discriminate]. apply N.eqb_eq in E. subst x.
    destruct Hin as [[= ->]|Hin]; [left; reflexivity|].
    right. eapply IH; eassumption.
  - destruct Hin as [[=]|Hin].
    revert r H. induction s as [|x s IHs]; intros r H; [discriminate|].
    rewrite match_here_plus in H. destruct (f x); [|discriminate].
    right. destruct (match_here (Plus f :: re) s) eqn:E.
    + eapply IHs. reflexivity.
    + eapply IH; eassumption.
Qed.

Lemma occurs_lit_absent c re s :
  In (Lit c) re -> ~ In c s -> occurs re s = false.
Proof.
  intros Hin. induction s as [|x s IH]; intros Hs; [reflexivity|].
  cbn [occurs]. destruct (match_here re (x :: s)) eqn:E.
  - exfalso. apply Hs. eapply match_here_lit_in; eassumption.
  - apply IH. intros H. apply Hs. right. exact H.
Qed.

Lemma occurs_all_class (P : char -> bool) c1 c2 re v :
  forallb P v = true -> P c1 && P c2 = false ->
  occurs (Lit c1 :: Lit c2 :: re) v = false.
Proof.
  intros Hv Hc. induction v as [|x v IH]; [reflexivity|].
  cbn [forallb] in Hv. apply andb_prop in Hv as [Hx Hv].
  rewrite occurs_cons_nomatch; [auto|].
  rewrite match_here_lit. destruct (x =? c1) eqn:E1; [|reflexivity].
  apply N.eqb_eq in E1. subst x. rewrite Hx in Hc. cbn [andb] in Hc.
  destruct v as [|y v]; [reflexivity|]. rewrite match_here_lit.
  destruct (y =? c2) eqn:E2; [|reflexivity].
  apply N.eqb_eq in E2. subst y. cbn [forallb] in Hv.
  rewrite Hc in Hv. discriminate.
Qed.

Lemma property_eqb_eq p q : property_eqb p q = true <-> p = q.
Proof. destruct p, q; cbn; split; congruence. Qed.

(** A token of one property holds no token of another. *)
Lemma bare_not_in_other_token q p v :
  property_eqb q p = false -> forallb (cls p) v = true ->
  occurs (bare q) (prefix p ++ v) = false.
Proof.
  intros Hqp Hv.
  destruct q, p; try discriminate Hqp;
    cbv [prefix str list_ascii_of_string List.map N_of_ascii N_of_digits
         app N.add N.mul Pos.add Pos.succ Pos.mul];
    repeat (rewrite occurs_cons_nomatch by reflexivity);
    match type of Hv with
    | forallb ?P v = true => apply (occurs_all_class P)
    end; first [exact Hv | reflexivity].
Qed.

Lemma bare_avoids_semi q : avoids SEMI (bare q) = true.
Proof. destruct q; reflexivity. Qed.

Lemma bare_avoids_quote q : avoids QUOTE (bare q) = true.
Proof. destruct q; reflexivity. Qed.

Lemma cls_semi p : cls p SEMI = false.
Proof. destruct p; reflexivity. Qed.

Lemma token_no_semi p v :
  forallb (cls p) v = true -> ~ In SEMI (prefix p ++ v).
Proof.
  intros Hv H. apply in_app_or in H as [H|H].
  - destruct p; cbv in H; intuition discriminate.
  - rewrite forallb_forall in Hv. apply Hv in H. rewrite cls_semi in H.
    discriminate.
Qed.

Lemma entry_ok_tok p v :
  entry_ok (Tok p v) = true -> v <> [] /\ forallb (cls p) v = true.
Proof.
  cbn [entry_ok]. intros H. apply andb_prop in H as [Hn Hv].
  split; [|exact Hv]. intros ->. discriminate.
Qed.

Lemma entry_ok_other w :
  entry_ok (Other w) = true -> forall q, occurs (bare q) w = false.
Proof.
  cbn [entry_ok]. intros Ht.
  apply negb_true_iff in Ht. apply has_token_false. exact Ht.
Qed.

Lemma render_no_bare q e :
  entry_ok e = true -> is_tok q e = false ->
  occurs (bare q) (render e) = false.
Proof.
  destruct e as [p v|w]; intros Hok Hq.
  - apply entry_ok_tok in Hok as [_ Hv].
    apply bare_not_in_other_token; assumption.
  - apply entry_ok_other. exact Hok.
Qed.

Lemma bare_not_at_space q s : match_here (bare q) (SPACE :: s) = None.
Proof. destruct q; reflexivity. Qed.

Lemma join_tail_cons e es :
  join_tail (e :: es) = SEMI :: SPACE :: render e ++ join_tail es.
Proof. reflexivity. Qed.

Lemma join_tail_no_bare q es :
  forallb entry_ok es = true -> existsb (is_tok q) es = false ->
  occurs (bare q) (join_tail es) = false.
Proof.
  induction es as [|e es IH]; intros Hok Hq; [reflexivity|].
  cbn [forallb existsb] in *. apply andb_prop in Hok as [He Hes].
  apply orb_false_iff in Hq as [Hqe Hqes].
  rewrite join_tail_cons.
  rewrite occurs_cons_nomatch
    by (apply match_here_avoided_head;
        [apply bare_avoids_semi|apply bare_nonempty]).
  rewrite occurs_cons_nomatch by apply bare_not_at_space.
  destruct es as [|e' es].
  - cbn [join_tail flat_map]. rewrite app_nil_r.
    apply render_no_bare; assumption.
  - rewrite join_tail_cons.
    rewrite occurs_split_at
      by (first [apply bare_avoids_semi|apply bare_nonempty]).
    rewrite render_no_bare by assumption. cbn [orb].
    specialize (IH Hes Hqes). rewrite join_tail_cons in IH.
    rewrite occurs_cons_nomatch in IH
      by (apply match_here_avoided_head;
          [apply bare_avoids_semi|apply bare_nonempty]).
    exact IH.
Qed.

Lemma join_no_bare q es :
  forallb entry_ok es = true -> existsb (is_tok q) es = false ->
  occurs (bare q) (join es) = false.
Proof.
  destruct es as [|e es]; intros Hok Hq; [reflexivity|].
  cbn [forallb existsb join] in *. apply andb_prop in Hok as [He Hes].
  apply orb_false_iff in Hq as [Hqe Hqes].
  destruct es as [|e' es].
  - cbn [join_tail flat_map]. rewrite app_nil_r.
    apply render_no_bare; assumption.
  - rewrite join_tail_cons.
    rewrite occurs_split_at
      by (first [apply bare_avoids_semi|apply bare_nonempty]).
    rewrite render_no_bare by assumption. cbn [orb].
    pose proof (join_tail_no_bare q (e' :: es) Hes Hqes) as H.
    rewrite join_tail_cons in H.
    rewrite occurs_cons_nomatch in H
      by (apply match_here_avoided_head;
          [apply bare_avoids_semi|apply bare_nonempty]).
    exact H.
Qed.

Lemma no_bare_no_leading q s :
  occurs (bare q) s = false -> occurs (leading q) s = false.
Proof.
  intros H. destruct (occurs (leading q) s) eqn:E; [|reflexivity].
  apply occurs_leading_bare in E. congruence.
Qed.

Lemma no_bare_no_trailing q s :
  occurs (bare q) s = false -> occurs (trailing q) s = false.
Proof.
  intros H. destruct (occurs (trailing q) s) eqn:E; [|reflexivity].
  apply occurs_trailing_bare in E. congruence.
Qed.

Lemma remove_no_bare q s : occurs (bare q) s = false -> remove q s = s.
Proof.
  intros H. rewrite remove_forms.
  rewrite (sub_no_occurrence _ _ _ (no_bare_no_leading _ _ H)).
  rewrite (sub_no_occurrence _ _ _ (no_bare_no_trailing _ _ H)).
  apply sub_no_occurrence, H.
Qed.

(** *** The leading-separator form on a list *)

Lemma leading_cons q : leading q = Lit SEMI :: Lit SPACE :: bare q.
Proof. reflexivity. Qed.

Lemma leading_tail_avoids_semi q : avoids SEMI (Lit SPACE :: bare q) = true.
Proof. destruct q; reflexivity. Qed.

Lemma render_no_leading q e :
  entry_ok e = true -> occurs (leading q) (render e) = false.
Proof.
  destruct e as [p v|w]; intros Hok.
  - apply entry_ok_tok in Hok as [_ Hv].
    apply (occurs_lit_absent SEMI); [left; reflexivity|].
    apply token_no_semi, Hv.
  - apply no_bare_no_leading, entry_ok_other, Hok.
Qed.

Lemma join_tail_head es : join_tail es = [] \/ exists s, join_tail es = SEMI :: s.
Proof. destruct es as [|e es]; [left|right; eexists]; reflexivity. Qed.

Lemma sub_leading_render q e es :
  entry_ok e = true ->
  sub (leading q) [] (render e ++ join_tail es)
  = render e ++ sub (leading q) [] (join_tail es).
Proof.
  intros Hok. pose proof (render_no_leading q e Hok) as H.
  destruct (join_tail_head es) as [->|[s ->]].
  - rewrite app_nil_r. cbn [sub]. rewrite sub_nil, app_nil_r.
    apply sub_no_occurrence, H.
  - rewrite leading_cons,
      (sub_scan_lit SEMI SEMI _ [] (leading_tail_avoids_semi q)).
    rewrite <- leading_cons, (sub_no_occurrence _ _ _ H). reflexivity.
Qed.

Lemma span_all_then f v s :
  forallb f v = true -> starts_in f s = false -> span f (v ++ s) = (v, s).
Proof.
  intros Hv Hs. induction v as [|x v IH].
  - destruct s as [|y s]; [reflexivity|].
    cbn [app span]. cbn [starts_in] in Hs. rewrite Hs. reflexivity.
  - cbn [forallb] in Hv. apply andb_prop in Hv as [Hx Hv].
    cbn [app span]. rewrite Hx, (IH Hv). reflexivity.
Qed.

Lemma strip_prefix_app pre s : strip_prefix pre (pre ++ s) = Some s.
Proof.
  induction pre as [|c pre IH]; [reflexivity|].
  cbn [app strip_prefix]. rewrite N.eqb_refl. exact IH.
Qed.

Lemma form_match_token pre f post v s :
  v <> [] -> forallb f v = true -> starts_in f (post ++ s) = false ->
  form_match pre f post (pre ++ v ++ post ++ s) = Some s.
Proof.
  intros Hne Hv Hs. unfold form_match.
  rewrite strip_prefix_app, (span_all_then _ _ _ Hv Hs).
  destruct v; [congruence|]. apply strip_prefix_app.
Qed.

Lemma join_tail_starts_in p es : starts_in (cls p) (join_tail es) = false.
Proof.
  destruct es as [|e es]; [reflexivity|].
  rewrite join_tail_cons. cbn [starts_in]. apply cls_semi.
Qed.

Lemma bare_match_token q v s :
  v <> [] -> forallb (cls q) v = true -> starts_in (cls q) s = false ->
  match_here (bare q) (prefix q ++ v ++ s) = Some s.
Proof.
  intros Hne Hv Hs. rewrite bare_form.
  apply (form_match_token _ _ [] v s); assumption.
Qed.

Lemma is_tok_render q e :
  is_tok q e = true -> exists v, e = Tok q v.
Proof.
  destruct e as [p v|w]; cbn [is_tok]; [|discriminate].
  intros H. apply property_eqb_eq in H. subst p. eauto.
Qed.

Lemma bare_no_match_render q e es :
  entry_ok e = true -> is_tok q e = false ->
  match_here (bare q) (render e ++ join_tail es) = None.
Proof.
  intros Hok Hq. pose proof (render_no_bare q e Hok Hq) as H.
  apply (occurs_false_match _ _ (bare_nonempty q)) in H.
  destruct (join_tail_head es) as [->|[s ->]].
  - rewrite app_nil_r. exact H.
  - rewrite (match_here_avoids _ _ (bare_avoids_semi q)), H. reflexivity.
Qed.

Lemma sub_leading_join_tail q es :
  forallb entry_ok es = true ->
  sub (leading q) [] (join_tail es) = join_tail (filter (keeps q) es).
Proof.
  induction es as [|e es IH]; intros Hok; [reflexivity|].
  cbn [forallb] in Hok. apply andb_prop in Hok as [He Hes].
  rewrite join_tail_cons, sub_cons by apply leading_nonempty.
  rewrite leading_cons, !match_here_lit, !N.eqb_refl, <- leading_cons.
  cbn [filter]. unfold keeps at 1.
  destruct (is_tok q e) eqn:Hq; cbn [negb].
  - apply is_tok_render in Hq as [v ->]. apply entry_ok_tok in He as [Hne Hv].
    cbn [render]. rewrite <- app_assoc, bare_match_token;
      [|assumption|assumption|apply join_tail_starts_in].
    cbn [app]. apply IH, Hes.
  - rewrite bare_no_match_render by assumption.
    rewrite sub_cons_nomatch by reflexivity.
    rewrite sub_leading_render, IH by assumption.
    rewrite join_tail_cons. reflexivity.
Qed.

Lemma sub_leading_join q e es :
  forallb entry_ok (e :: es) = true ->
  sub (leading q) [] (join (e :: es))
  = render e ++ join_tail (filter (keeps q) es).
Proof.
  cbn [forallb join]. intros Hok. apply andb_prop in Hok as [He Hes].
  rewrite sub_leading_render, sub_leading_join_tail by assumption.
  reflexivity.
Qed.

(** *** A strip block on a list and on a document *)

Lemma sub_match re repl s r :
  re <> [] -> match_here re s = Some r ->
  sub re repl s = repl ++ sub re repl r.
Proof.
  intros Hre H. destruct s as [|x s].
  - destruct re; [congruence|]. rewrite match_here_nil_text in H.
    discriminate.
  - apply sub_cons_match; assumption.
Qed.

Lemma filter_keeps_no_tok q es :
  existsb (is_tok q) (filter (keeps q) es) = false.
Proof.
  induction es as [|e es IH]; [reflexivity|]. cbn [filter]. unfold keeps at 1.
  destruct (is_tok q e) eqn:E; cbn [negb]; [exact IH|].
  cbn [existsb]. rewrite E, IH. reflexivity.
Qed.

Lemma filter_entries_ok (f : entry -> bool) es :
  forallb entry_ok es = true -> forallb entry_ok (filter f es) = true.
Proof.
  induction es as [|e es IH]; [reflexivity|]. cbn [forallb filter].
  intros H. apply andb_prop in H as [He Hes].
  destruct (f e); [cbn [forallb]; rewrite He|]; auto.
Qed.

Lemma trailing_has_semi q : In (Lit SEMI) (trailing q).
Proof. unfold trailing. apply in_or_app. right. left. reflexivity. Qed.

Lemma trailing_match_token q v s :
  v <> [] -> forallb (cls q) v = true ->
  match_here (trailing q) (prefix q ++ v ++ separator ++ s) = Some s.
Proof.
  intros Hne Hv. rewrite trailing_form.
  apply form_match_token; [assumption|assumption|apply cls_semi].
Qed.

Lemma remove_nil q : remove q [] = [].
Proof. destruct q; reflexivity. Qed.

Lemma remove_join q es :
  forallb entry_ok es = true ->
  remove q (join es) = join (filter (keeps q) es).
Proof.
  destruct es as [|e es]; intros Hok; [apply remove_nil|].
  rewrite remove_forms, sub_leading_join by assumption.
  cbn [forallb] in Hok. apply andb_prop in Hok as [He Hes].
  pose proof (filter_entries_ok (keeps q) es Hes) as Hok'.
  pose proof (filter_keeps_no_tok q es) as Hno.
  cbn [filter].
  assert (K : keeps q e = negb (is_tok q e)) by reflexivity.
  destruct (is_tok q e) eqn:Hq; cbn [negb] in K; rewrite K.
  - apply is_tok_render in Hq as [v ->]. apply entry_ok_tok in He as [Hne Hv].
    cbn [render].
    destruct (filter (keeps q) es) as [|e2 es2] eqn:F.
    + cbn [join_tail flat_map join]. rewrite app_nil_r.
      rewrite (sub_no_occurrence (trailing q))
        by (apply (occurs_lit_absent SEMI);
            [apply trailing_has_semi|apply token_no_semi, Hv]).
      rewrite (sub_match (bare q) [] (prefix q ++ v) []);
        [reflexivity|apply bare_nonempty|].
      rewrite <- (app_nil_r v) at 1.
      apply bare_match_token; [assumption|assumption|reflexivity].
    + rewrite join_tail_cons.
      change (SEMI :: SPACE :: render e2 ++ join_tail es2)
        with (separator ++ join (e2 :: es2)).
      rewrite <- app_assoc.
      rewrite (sub_match (trailing q) [] _ (join (e2 :: es2)));
        [|apply trailing_nonempty|apply trailing_match_token; assumption].
      cbn [app].
      pose proof (join_no_bare q (e2 :: es2) Hok' Hno) as Hb.
      rewrite (sub_no_occurrence _ _ _ (no_bare_no_trailing _ _ Hb)).
      apply sub_no_occurrence, Hb.
  - assert (Hb : occurs (bare q) (join (e :: filter (keeps q) es)) = false).
    { apply join_no_bare; cbn [forallb existsb].
      - rewrite He. exact Hok'.
      - rewrite Hq. exact Hno. }
    cbn [join] in Hb.
    rewrite (sub_no_occurrence _ _ _ (no_bare_no_trailing _ _ Hb)).
    apply sub_no_occurrence, Hb.
Qed.

Lemma leading_avoids_quote q : avoids QUOTE (leading q) = true.
Proof. destruct q; reflexivity. Qed.

Lemma trailing_avoids_quote q : avoids QUOTE (trailing q) = true.
Proof. destruct q; reflexivity. Qed.

Lemma remove_split_quote q (a b : text) :
  remove q (a ++ QUOTE :: b) = remove q a ++ QUOTE :: remove q b.
Proof.
  rewrite !remove_forms.
  rewrite (sub_split_at _ _ _ (leading_avoids_quote q) (leading_nonempty q)).
  rewrite (sub_split_at _ _ _ (trailing_avoids_quote q) (trailing_nonempty q)).
  apply (sub_split_at _ _ _ (bare_avoids_quote q) (bare_nonempty q)).
Qed.

Lemma render_document_cons es es' d :
  render_document (es :: es' :: d)
  = join es ++ QUOTE :: render_document (es' :: d).
Proof. reflexivity. Qed.

Lemma remove_document q d :
  document_ok d = true ->
  remove q (render_document d)
  = render_document (List.map (filter (keeps q)) d).
Proof.
  unfold document_ok. induction d as [|es d IH]; intros Hok.
  - apply remove_nil.
  - cbn [forallb] in Hok. apply andb_prop in Hok as [Hes Hd].
    destruct d as [|es' d].
    + cbn [render_document List.map]. apply remove_join, Hes.
    + rewrite render_document_cons, remove_split_quote.
      rewrite remove_join, IH by assumption. reflexivity.
Qed.

Lemma document_ok_filter (f : entry -> bool) d :
  document_ok d = true -> document_ok (List.map (filter f) d) = true.
Proof.
  unfold document_ok. induction d as [|es d IH]; [reflexivity|].
  cbn [forallb List.map]. intros H. apply andb_prop in H as [Hes Hd].
  rewrite filter_entries_ok by assumption. auto.
Qed.

Lemma filter_all (es : list entry) : filter (keeps_all []) es = es.
Proof.
  induction es as [|e es IH]; [reflexivity|]. cbn. rewrite IH. reflexivity.
Qed.

Lemma filter_keeps_all q order (es : list entry) :
  filter (keeps_all order) (filter (keeps q) es)
  = filter (keeps_all (q :: order)) es.
Proof.
  induction es as [|e es IH]; [reflexivity|].
  cbn [filter keeps_all forallb].
  destruct (keeps q e); cbn [andb filter]; rewrite IH; reflexivity.
Qed.

Lemma strip_in_order_document order :
  forall d, document_ok d = true ->
  strip_in_order order (render_document d)
  = render_document (List.map (filter (keeps_all order)) d).
Proof.
  induction order as [|q order IH]; intros d Hok.
  - cbn [strip_in_order fold_left].
    rewrite (map_ext _ (fun es => es) filter_all), map_id. reflexivity.
  - change (strip_in_order (q :: order) (render_document d))
      with (strip_in_order order (remove q (render_document d))).
    rewrite remove_document, IH by (try apply document_ok_filter; assumption).
    rewrite map_map.
    rewrite (map_ext _ _ (filter_keeps_all q order)). reflexivity.
Qed.

Lemma keeps_all_is_other order e :
  (forall p, In p order) -> keeps_all order e = is_other e.
Proof.
  intros Hall. destruct e as [p v|w]; cbn [is_other].
  - specialize (Hall p). unfold keeps_all.
    induction order as [|q order IH]; [destruct Hall|].
    cbn [forallb]. destruct Hall as [->|Hin].
    + unfold keeps at 1. cbn [is_tok].
      rewrite (proj2 (property_eqb_eq p p) eq_refl). reflexivity.
    + rewrite (IH Hin). apply andb_false_r.
  - unfold keeps_all. clear Hall.
    induction order as [|q order IH]; [reflexivity|].
    cbn [forallb]. rewrite IH. reflexivity.
Qed.

Lemma strip_is_strip_in_order x : strip x = strip_in_order all_properties x.
Proof.
  unfold strip, strip_in_order, all_properties. cbn [fold_left remove].
  reflexivity.
Qed.

Lemma all_properties_complete p : In p all_properties.
Proof. destruct p; cbn; tauto. Qed.

Lemma strip_in_order_complete order d :
  document_ok d = true -> (forall p, In p order) ->
  strip_in_order order (render_document d)
  = render_document (List.map (filter is_other) d).
Proof.
  intros Hok Hall. rewrite strip_in_order_document by assumption.
  f_equal. apply map_ext. intros es. apply filter_ext.
  intros e. apply keeps_all_is_other, Hall.
Qed.

Lemma strip_in_order_split_quote order :
  forall a b,
    strip_in_order order (a ++ QUOTE :: b)
    = strip_in_order order a ++ QUOTE :: strip_in_order order b.
Proof.
  unfold strip_in_order.
  induction order as [|p order IH]; intros a b; [reflexivity|].
  cbn [fold_left]. rewrite remove_split_quote. apply IH.
Qed.

(** C3, as stated, fails: a strip block can bring the two halves of
    another block's token together, and the hexadecimal class of
    [emissive] can take the first letter of a following
    [emissiveIntensity]. *)
Lemma strip_order_matters :
  Permutation [Roughness; Metalness; Emissive; EmissiveIntensity]
    all_properties
  /\ strip_in_order [Roughness; Metalness; Emissive; EmissiveIntensity]
       (str "metalroughness: 1ness: 2")
     <> strip_in_order all_properties (str "metalroughness: 1ness: 2")
  /\ Permutation [Metalness; Roughness; EmissiveIntensity; Emissive]
       all_properties
  /\ strip_in_order [Metalness; Roughness; EmissiveIntensity; Emissive]
       (str "emissive: #aemissiveIntensity: 1")
     <> strip_in_order all_properties (str "emissive: #aemissiveIntensity: 1").
Proof.
  split; [apply perm_swap|].
  split; [vm_compute; discriminate|].
  split; [do 2 apply perm_skip; apply perm_swap|].
  vm_compute; discriminate.
Qed.

(** C3, amended.  On a document whose text between double quotes is a
    list of entries separated by semicolon-space, each entry a token of
    one of the four properties or other text without a token, the four
    strip blocks give the same text in every order: the document without
    its tokens and their separators. *)
Theorem strip_order_on_documents (d : document) (order : list property) :
  document_ok d = true -> Permutation order all_properties ->
  strip_in_order order (render_document d) = strip (render_document d)
  /\ strip (render_document d)
     = render_document (List.map (filter is_other) d).
Proof.
  intros Hok Hperm.
  assert (Hall : forall p, In p order).
  { intros p. apply (Permutation_in p (Permutation_sym Hperm)).
    apply all_properties_complete. }
  rewrite strip_is_strip_in_order.
  rewrite (strip_in_order_complete order d Hok Hall).
  rewrite (strip_in_order_complete all_properties d Hok
             all_properties_complete).
  split; reflexivity.
Qed.

Lemma strip_order_on_documents_witness :
  strip_in_order (rev all_properties) (render_document sample_document)
  = strip (render_document sample_document)
  /\ strip (render_document sample_document)
     = render_document (List.map (filter is_other) sample_document).
Proof.
  apply (strip_order_on_documents sample_document (rev all_properties)).
  - vm_compute. reflexivity.
  - apply Permutation_sym, Permutation_rev.
Defined.

(** *** One attribute value among other text *)

Lemma strip_in_order_value order :
  forall (pre post : text) es,
    forallb entry_ok es = true ->
    (forall q, occurs (bare q) pre = false) ->
    (forall q, occurs (bare q) post = false) ->
    strip_in_order order (pre ++ QUOTE :: join es ++ QUOTE :: post)
    = pre ++ QUOTE :: join (filter (keeps_all order) es) ++ QUOTE :: post.
Proof.
  induction order as [|q order IH]; intros pre post es Hok Hpre Hpost.
  - cbn [strip_in_order fold_left]. rewrite filter_all. reflexivity.
  - change (strip_in_order (q :: order) ?x)
      with (strip_in_order order (remove q x)).
    rewrite remove_split_quote, remove_split_quote.
    rewrite (remove_no_bare q pre), (remove_no_bare q post),
      remove_join by auto.
    rewrite IH by (try apply filter_entries_ok; assumption).
    rewrite filter_keeps_all. reflexivity.
Qed.

Lemma clean_parts (s : text) :
  clean s = true ->
  forall a b, s = a ++ b ->
  (forall q, occurs (bare q) a = false)
  /\ (forall q, occurs (bare q) b = false).
Proof.
  intros H a b ->. apply clean_spec in H as (Hb & _).
  split; intros q; apply (occurs_app_false _ _ _ (Hb q)).
Qed.

(** ** A token that is a whole quoted value *)

Lemma strip_in_order_nil order : strip_in_order order [] = [].
Proof.
  unfold strip_in_order. induction order as [|q order IH]; [reflexivity|].
  cbn [fold_left]. rewrite remove_nil. exact IH.
Qed.

Lemma strip_token p v :
  entry_ok (Tok p v) = true -> strip (render (Tok p v)) = [].
Proof.
  intros Hok. rewrite strip_is_strip_in_order.
  replace (render (Tok p v)) with (render_document [[Tok p v]])
    by (cbn [render_document join join_tail flat_map]; apply app_nil_r).
  rewrite strip_in_order_document
    by (unfold document_ok; cbn [forallb]; rewrite Hok; reflexivity).
  cbn [List.map filter].
  rewrite (keeps_all_is_other _ _ all_properties_complete). reflexivity.
Qed.

Lemma strip_split_quote (a b : text) :
  strip (a ++ QUOTE :: b) = strip a ++ QUOTE :: strip b.
Proof.
  rewrite (strip_is_strip_in_order (a ++ QUOTE :: b)),
    (strip_is_strip_in_order a), (strip_is_strip_in_order b).
  apply strip_in_order_split_quote.
Qed.

Lemma strip_nil : strip [] = [].
Proof. rewrite strip_is_strip_in_order. apply strip_in_order_nil. Qed.

Lemma drop_semi_cons c1 s1 :
  drop_semi_before_quote (c1 :: s1)
  = match s1 with
    | c2 :: c3 :: s3 =>
        if (c1 =? SEMI) && (c2 =? SPACE) && (c3 =? QUOTE)
        then QUOTE :: drop_semi_before_quote s3
        else c1 :: drop_semi_before_quote s1
    | _ => c1 :: drop_semi_before_quote s1
    end.
Proof. reflexivity. Qed.

Lemma drop_semi_quote_head s :
  drop_semi_before_quote (QUOTE :: s) = QUOTE :: drop_semi_before_quote s.
Proof. rewrite drop_semi_cons. destruct s as [|c2 [|c3 s3]]; reflexivity. Qed.

(** The second of two double quotes side by side is in no match. *)
Lemma drop_semi_quote_quote :
  forall a b : text,
    drop_semi_before_quote (a ++ QUOTE :: QUOTE :: b)
    = drop_semi_before_quote (a ++ [QUOTE])
      ++ QUOTE :: drop_semi_before_quote b.
Proof.
  intros a b. induction a as [a IH] using text_length_ind.
  destruct a as [|x [|y a]].
  - cbn [app]. rewrite !drop_semi_quote_head. reflexivity.
  - cbn [app]. rewrite (drop_semi_cons x (QUOTE :: QUOTE :: b)).
    change (QUOTE =? SPACE) with false. rewrite andb_false_r. cbn [andb].
    rewrite !drop_semi_quote_head. reflexivity.
  - cbn [app].
    rewrite (drop_semi_cons x (y :: a ++ QUOTE :: QUOTE :: b)),
      (drop_semi_cons x (y :: a ++ [QUOTE])).
    destruct a as [|z a]; cbn [app].
    + destruct ((x =? SEMI) && (y =? SPACE) && (QUOTE =? QUOTE)).
      * rewrite drop_semi_quote_head. reflexivity.
      * pose proof (IH [y]) as H. cbn [app] in H.
        rewrite H by (simpl; lia). reflexivity.
    + destruct ((x =? SEMI) && (y =? SPACE) && (z =? QUOTE)).
      * rewrite (IH a) by (simpl; lia). reflexivity.
      * pose proof (IH (y :: z :: a)) as H. cbn [app] in H.
        rewrite H by (simpl; lia). reflexivity.
Qed.

Lemma drop_semi_nonempty c s : drop_semi_before_quote (c :: s) <> [].
Proof.
  rewrite drop_semi_cons. destruct s as [|c2 [|c3 s3]]; try discriminate.
  destruct ((c =? SEMI) && (c2 =? SPACE) && (c3 =? QUOTE)); discriminate.
Qed.

Lemma drop_semi_ends_with_quote :
  forall a : text,
    ends_with QUOTE (drop_semi_before_quote (a ++ [QUOTE])) = true.
Proof.
  intros a. induction a as [a IH] using text_length_ind.
  destruct a as [|x [|y a]]; [reflexivity|reflexivity|].
  cbn [app]. rewrite (drop_semi_cons x (y :: a ++ [QUOTE])).
  destruct a as [|z a]; cbn [app].
  - destruct ((x =? SEMI) && (y =? SPACE) && (QUOTE =? QUOTE));
      [reflexivity|].
    rewrite ends_with_cons_nonempty by apply drop_semi_nonempty.
    apply (IH [y]). simpl; lia.
  - destruct ((x =? SEMI) && (y =? SPACE) && (z =? QUOTE)).
    + destruct a as [|u a]; [reflexivity|].
      rewrite ends_with_cons_nonempty by apply drop_semi_nonempty.
      apply (IH (u :: a)). simpl; lia.
    + rewrite ends_with_cons_nonempty by apply drop_semi_nonempty.
      apply (IH (y :: z :: a)). simpl; lia.
Qed.

Lemma collapse_spaces_snoc_quote (a : text) :
  collapse_spaces (a ++ [QUOTE]) = collapse_spaces a ++ [QUOTE].
Proof. apply (collapse_spaces_split_at QUOTE a []). discriminate. Qed.

Lemma clean_up_quote_quote (a b : text) :
  clean_up (a ++ QUOTE :: QUOTE :: b)
  = clean_up (a ++ [QUOTE]) ++ QUOTE :: clean_up b.
Proof.
  rewrite !clean_up_spec.
  rewrite (collapse_spaces_split_at QUOTE a (QUOTE :: b)) by discriminate.
  rewrite (collapse_spaces_cons_other QUOTE b) by discriminate.
  rewrite collapse_spaces_snoc_quote. apply drop_semi_quote_quote.
Qed.

Lemma clean_up_ends_with_quote (a : text) :
  ends_with QUOTE (clean_up (a ++ [QUOTE])) = true.
Proof.
  rewrite clean_up_spec, collapse_spaces_snoc_quote.
  apply drop_semi_ends_with_quote.
Qed.

(** C6.  For each of the four properties and every value of its class,
    a token that is the whole of a quoted attribute value is removed
    entirely, whatever stands before and after the value: the removals
    leave the two quotes side by side, the transform of the text is the
    transform of the text with an empty value, and its output has the
    closing quote directly behind the opening one.  When the text with
    the empty value is clean, that text is the output: the input
    [material=], quote, [metalness: 1.0], quote gives [material=],
    quote, quote. *)
Theorem bare_token_whole_value (p : property) (v pre post : text) :
  entry_ok (Tok p v) = true ->
  strip (pre ++ QUOTE :: render (Tok p v) ++ QUOTE :: post)
  = strip pre ++ QUOTE :: QUOTE :: strip post
  /\ transform (pre ++ QUOTE :: render (Tok p v) ++ QUOTE :: post)
     = transform (pre ++ QUOTE :: QUOTE :: post)
  /\ transform (pre ++ QUOTE :: render (Tok p v) ++ QUOTE :: post)
     = transform (pre ++ [QUOTE]) ++ QUOTE :: transform post
  /\ ends_with QUOTE (transform (pre ++ [QUOTE])) = true
  /\ (clean (pre ++ QUOTE :: QUOTE :: post) = true ->
      transform (pre ++ QUOTE :: render (Tok p v) ++ QUOTE :: post)
      = pre ++ QUOTE :: QUOTE :: post).
Proof.
  intros Hok.
  assert (S1 : strip (pre ++ QUOTE :: render (Tok p v) ++ QUOTE :: post)
               = strip pre ++ QUOTE :: QUOTE :: strip post).
  { rewrite strip_split_quote, strip_split_quote, (strip_token _ _ Hok).
    reflexivity. }
  assert (S2 : strip (pre ++ QUOTE :: QUOTE :: post)
               = strip pre ++ QUOTE :: QUOTE :: strip post).
  { rewrite strip_split_quote.
    pose proof (strip_split_quote [] post) as H. cbn [app] in H.
    rewrite H, strip_nil. reflexivity. }
  assert (S3 : strip (pre ++ [QUOTE]) = strip pre ++ [QUOTE]).
  { rewrite strip_split_quote, strip_nil. reflexivity. }
  assert (T : transform (pre ++ QUOTE :: render (Tok p v) ++ QUOTE :: post)
              = transform (pre ++ QUOTE :: QUOTE :: post)).
  { unfold transform. rewrite S1, S2. reflexivity. }
  split; [exact S1|]. split; [exact T|]. split; [|split].
  - unfold transform. rewrite S1, S3. apply clean_up_quote_quote.
  - unfold transform. rewrite S3. apply clean_up_ends_with_quote.
  - intros Hclean. rewrite T. apply transform_fixed_iff, Hclean.
Qed.

Lemma bare_token_whole_value_witness :
  transform (str "material=" ++ QUOTE :: str "metalness: 1.0" ++ [QUOTE])
  = str "material=" ++ [QUOTE; QUOTE].
Proof.
  apply (bare_token_whole_value Metalness (str "1.0") (str "material=") []);
    vm_compute; reflexivity.
Defined.

(** C7, as stated, fails: the value of the token goes on when a digit
    or a period follows the substring, and the clean-up changes other
    places of the text. *)
Lemma leading_token_removal_not_exact :
  transform ((str "material=" ++ QUOTE :: str "color: red")
             ++ str "; metalness: 0.5" ++ (str "5" ++ [QUOTE]))
  <> (str "material=" ++ QUOTE :: str "color: red") ++ (str "5" ++ [QUOTE])
  /\ transform ((str "alt=" ++ QUOTE :: str "a  b")
                ++ str "; metalness: 0.5" ++ [QUOTE])
     <> (str "alt=" ++ QUOTE :: str "a  b") ++ [QUOTE].
Proof. split; vm_compute; discriminate. Qed.

(** C7, amended.  When the text before and after the substring
    [; metalness: 0.5] is, put together, clean (no token, no run of two
    spaces, no semicolon-space-quote) and the text after it does not
    start with a digit or a period, the transform gives exactly the text
    before followed by the text after: the substring is gone and nothing
    else has changed, so the output is clean too. *)
Theorem leading_metalness_token_removed (pre post : text) :
  clean (pre ++ post) = true -> starts_in digits_dot post = false ->
  transform (pre ++ str "; metalness: 0.5" ++ post) = pre ++ post
  /\ clean (transform (pre ++ str "; metalness: 0.5" ++ post)) = true.
Proof.
  intros Hclean Hpost.
  assert (E : transform (pre ++ str "; metalness: 0.5" ++ post) = pre ++ post).
  { destruct (clean_parts _ Hclean pre post eq_refl) as [Hb1 Hb2].
    pose proof (proj1 (clean_spec _) Hclean) as (Hb & Hd & Hq).
    assert (R : remove Metalness (pre ++ str "; metalness: 0.5" ++ post)
                = pre ++ post).
    { rewrite remove_forms.
      change (str "; metalness: 0.5" ++ post)
        with (SEMI :: SPACE :: prefix Metalness ++ str "0.5" ++ post).
      rewrite leading_cons,
        (sub_scan_lit SEMI SEMI _ [] (leading_tail_avoids_semi Metalness)).
      rewrite <- leading_cons.
      rewrite (sub_no_occurrence _ _ _ (no_bare_no_leading _ _ (Hb1 _))).
      rewrite (sub_match (leading Metalness) [] _ post);
        [|apply leading_nonempty|].
      - cbn [app].
        rewrite (sub_no_occurrence _ _ _ (no_bare_no_leading _ _ (Hb2 _))).
        rewrite (sub_no_occurrence _ _ _ (no_bare_no_trailing _ _ (Hb _))).
        apply sub_no_occurrence, Hb.
      - rewrite leading_cons, !match_here_lit, !N.eqb_refl.
        apply bare_match_token; [discriminate|reflexivity|exact Hpost]. }
    unfold transform, strip.
    change (remove_metalness ?x) with (remove Metalness x). rewrite R.
    change (remove_roughness ?x) with (remove Roughness x).
    rewrite (remove_no_bare _ _ (Hb _)).
    change (remove_emissive ?x) with (remove Emissive x).
    rewrite (remove_no_bare _ _ (Hb _)).
    change (remove_emissiveIntensity ?x) with (remove EmissiveIntensity x).
    rewrite (remove_no_bare _ _ (Hb _)).
    apply clean_up_no_occurrence; assumption. }
  split; [exact E|]. rewrite E. exact Hclean.
Qed.

Lemma leading_metalness_token_removed_witness :
  transform ((str "material=" ++ QUOTE :: str "color: red")
             ++ str "; metalness: 0.5" ++ [QUOTE])
  = (str "material=" ++ QUOTE :: str "color: red") ++ [QUOTE].
Proof.
  apply (leading_metalness_token_removed
           (str "material=" ++ QUOTE :: str "color: red") [QUOTE]);
    vm_compute; reflexivity.
Defined.

(** * More on the script *)

(** ** The transform only deletes *)

Lemma subseq_refl s : subseq s s.
Proof. induction s; constructor; assumption. Qed.

Lemma subseq_nil_l t : subseq [] t.
Proof. induction t; constructor; assumption. Qed.

Lemma subseq_app a a' b b' :
  subseq a a' -> subseq b b' -> subseq (a ++ b) (a' ++ b').
Proof.
  intros Ha Hb. induction Ha; cbn [app]; try constructor; assumption.
Qed.

Lemma subseq_trans a b c : subseq a b -> subseq b c -> subseq a c.
Proof.
  intros Hab Hbc. revert a Hab.
  induction Hbc as [|x s t Hst IH|x s t Hst IH]; intros a Hab.
  - exact Hab.
  - apply subseq_skip, IH, Hab.
  - inversion Hab; subst.
    + apply subseq_skip, IH. assumption.
    + apply subseq_keep, IH. assumption.
Qed.

Lemma subseq_length a b : subseq a b -> (List.length a <= List.length b)%nat.
Proof. induction 1; simpl; lia. Qed.

Lemma subseq_count_occ a b c :
  subseq a b -> (count_occ N.eq_dec a c <= count_occ N.eq_dec b c)%nat.
Proof.
  induction 1 as [|x s t H IH|x s t H IH]; [lia| |].
  - destruct (N.eq_dec x c) as [->|Hx].
    + rewrite count_occ_cons_eq by reflexivity. unfold char, text in *. lia.
    + rewrite count_occ_cons_neq by assumption. exact IH.
  - destruct (N.eq_dec x c) as [->|Hx].
    + rewrite !count_occ_cons_eq by reflexivity. unfold char, text in *. lia.
    + rewrite !count_occ_cons_neq by assumption. exact IH.
Qed.

Lemma subseq_in a b c : subseq a b -> In c a -> In c b.
Proof.
  induction 1 as [|x s t H IH|x s t H IH]; intros Hin.
  - destruct Hin.
  - right. auto.
  - destruct Hin as [->|Hin]; [left; reflexivity|right; auto].
Qed.

(** What a match consumed, which has at least one character per atom. *)
Lemma match_here_split re :
  forall s r, match_here re s = Some r ->
  exists m, s = m ++ r /\ (List.length re <= List.length m)%nat.
Proof.
  induction re as [|[c|f] re IH]; intros s r H.
  - injection H as <-. exists []. split; [reflexivity|simpl; lia].
  - destruct s as [|x s]; [discriminate|]. rewrite match_here_lit in H.
    destruct (x =? c); [|discriminate].
    destruct (IH _ _ H) as (m & -> & Hm).
    exists (x :: m). split; [reflexivity|simpl; lia].
  - revert r H. induction s as [|x s IHs]; intros r H; [discriminate|].
    rewrite match_here_plus in H. destruct (f x); [|discriminate].
    destruct (match_here (Plus f :: re) s) as [r1|] eqn:E.
    + injection H as <-. destruct (IHs _ eq_refl) as (m & -> & Hm).
      exists (x :: m). split; [reflexivity|simpl in *; lia].
    + destruct (IH _ _ H) as (m & -> & Hm).
      exists (x :: m). split; [reflexivity|simpl; lia].
Qed.

(** A substitution whose replacement is part of every match only
    deletes. *)
Lemma sub_subseq re repl :
  re <> [] ->
  (forall s r, match_here re s = Some r ->
               exists m, s = m ++ r /\ subseq repl m) ->
  forall s, subseq (sub re repl s) s.
Proof.
  intros Hre Hm s. induction s as [s IH] using text_length_ind.
  destruct s as [|x s]; [constructor|].
  rewrite sub_cons by assumption.
  destruct (match_here re (x :: s)) as [r|] eqn:E.
  - destruct (Hm _ _ E) as (m & Hs & Hsub). rewrite Hs.
    apply subseq_app; [exact Hsub|].
    apply IH, (match_here_shorter _ _ _ _ Hre E).
  - apply subseq_keep, IH. simpl. lia.
Qed.

Lemma sub_empty_subseq re s : re <> [] -> subseq (sub re [] s) s.
Proof.
  intros Hre. apply sub_subseq; [exact Hre|].
  intros s0 r E. destruct (match_here_split _ _ _ E) as (m & -> & _).
  exists m. split; [reflexivity|apply subseq_nil_l].
Qed.

Lemma remove_subseq p s : subseq (remove p s) s.
Proof.
  rewrite remove_forms.
  eapply subseq_trans; [apply sub_empty_subseq, bare_nonempty|].
  eapply subseq_trans; [apply sub_empty_subseq, trailing_nonempty|].
  apply sub_empty_subseq, leading_nonempty.
Qed.

Lemma strip_in_order_subseq order :
  forall s, subseq (strip_in_order order s) s.
Proof.
  unfold strip_in_order.
  induction order as [|p order IH]; intros s; [apply subseq_refl|].
  cbn [fold_left].
  eapply subseq_trans; [apply IH|apply remove_subseq].
Qed.

Lemma strip_subseq s : subseq (strip s) s.
Proof. rewrite strip_is_strip_in_order. apply strip_in_order_subseq. Qed.

Lemma clean_up_subseq s : subseq (clean_up s) s.
Proof.
  unfold clean_up.
  eapply subseq_trans; apply sub_subseq; try discriminate.
  - intros [|c1 s1] r E; [discriminate|]. rewrite semi_quote_match in E.
    destruct s1 as [|c2 [|c3 s3]]; try discriminate.
    destruct ((c1 =? SEMI) && (c2 =? SPACE) && (c3 =? QUOTE)) eqn:B;
      [|discriminate].
    injection E as <-. apply andb_prop in B as [_ B].
    apply N.eqb_eq in B. subst c3.
    exists [c1; c2; QUOTE]. split; [reflexivity|].
    do 2 apply subseq_skip. apply subseq_refl.
  - intros [|x s0] r E; [discriminate|].
    destruct (match_here_split _ _ _ E) as (m & Hs & Hm).
    unfold double_spaces in E. rewrite match_here_lit in E.
    destruct (x =? SPACE) eqn:B; [|discriminate].
    apply N.eqb_eq in B. subst x.
    destruct m as [|y m]; [simpl in Hm; lia|].
    injection Hs as <- Hs. exists (SPACE :: m).
    split; [rewrite Hs; reflexivity|].
    apply subseq_keep, subseq_nil_l.
Qed.

(** X1.  The transform only deletes characters: its output is the input
    with some characters left out, in the same order.  So no character
    occurs more often in the output than in the input, and every
    character of the output is one of the input. *)
Theorem transform_only_deletes (x : text) :
  subseq (transform x) x
  /\ (forall c, (count_occ N.eq_dec (transform x) c
                 <= count_occ N.eq_dec x c)%nat)
  /\ incl (transform x) x.
Proof.
  assert (H : subseq (transform x) x).
  { unfold transform.
    eapply subseq_trans; [apply clean_up_subseq|apply strip_subseq]. }
  split; [exact H|]. split.
  - intros c. apply subseq_count_occ, H.
  - intros c. apply subseq_in, H.
Qed.

(** ** Unchanged or shorter *)

Lemma run_rules_same_length rs :
  forallb rule_ok rs = true ->
  forall s, List.length (run_rules rs s) = List.length s ->
            run_rules rs s = s.
Proof.
  induction rs as [|r rs IH]; intros Hok s H; [reflexivity|].
  cbn [forallb] in Hok. apply andb_prop in Hok as [Hr Hrs].
  rewrite run_rules_cons in *. apply rule_ok_spec in Hr.
  pose proof (run_rules_length_le rs Hrs (sub (fst r) (snd r) s)) as L1.
  assert (E : occurs (fst r) s = false).
  { destruct (occurs (fst r) s) eqn:E; [|reflexivity].
    apply (sub_length_lt _ _ Hr) in E. lia. }
  rewrite (sub_no_occurrence _ _ _ E) in *. apply IH; assumption.
Qed.

(** X2.  The transform returns the text unchanged or a strictly shorter
    text: an output as long as the input is the input. *)
Theorem transform_unchanged_or_shorter (x : text) :
  (transform x = x \/ (List.length (transform x) < List.length x)%nat)
  /\ (List.length (transform x) = List.length x <-> transform x = x).
Proof.
  assert (L : (List.length (transform x) <= List.length x)%nat)
    by (rewrite transform_rules; apply run_rules_length_le, rules_ok).
  assert (S : List.length (transform x) = List.length x -> transform x = x).
  { rewrite transform_rules. apply run_rules_same_length, rules_ok. }
  split.
  - destruct (Nat.eq_dec (List.length (transform x)) (List.length x)) as [E|N].
    + left. apply S, E.
    + right. lia.
  - split; [exact S|]. intros ->. reflexivity.
Qed.

(** ** Characters no pattern consumes *)

Lemma rules_avoid_keep d :
  forallb (rule_avoids d) rules = true -> forallb (rule_keeps d) rules = true.
Proof.
  intros H. apply forallb_forall. intros r Hr.
  rewrite forallb_forall in H. specialize (H r Hr).
  unfold rule_keeps. rewrite H. cbn [andb].
  unfold rules in Hr. apply in_app_or in Hr as [Hr|Hr].
  - apply in_flat_map in Hr as (p & _ & Hp). cbn [In] in Hp.
    destruct Hp as [<-|[<-|[<-|[]]]]; reflexivity.
  - unfold rule_avoids in H. apply andb_prop in H as [H _].
    destruct Hr as [<-|[<-|[]]]; cbn [fst snd existsb avoids] in *;
      apply andb_prop in H as [H1 H2].
    + rewrite orb_false_r, N.eqb_sym. exact H1.
    + apply andb_prop in H2 as [_ H2]. apply andb_prop in H2 as [H2 _].
      rewrite orb_false_r, N.eqb_sym. exact H2.
Qed.

(** X3.  A character that no pattern of the script can consume cuts the
    text in two: the transform of the whole is the transform of each
    side with the character between them; and the transform keeps every
    occurrence of such a character. *)
Theorem transform_splits_at_foreign_char (d : char) (a b : text) :
  forallb (rule_avoids d) rules = true ->
  transform (a ++ d :: b) = transform a ++ d :: transform b
  /\ count_occ N.eq_dec (transform (a ++ d :: b)) d
     = count_occ N.eq_dec (a ++ d :: b) d.
Proof.
  intros H. split.
  - rewrite (transform_rules (a ++ d :: b)), (transform_rules a),
      (transform_rules b).
    apply run_rules_split_at, H.
  - rewrite (transform_rules (a ++ d :: b)).
    apply run_rules_count_occ, rules_avoid_keep, H.
Qed.

Lemma transform_splits_at_foreign_char_witness :
  forallb (rule_avoids 62) rules = true
  /\ transform ((str "<a-box material=" ++ QUOTE
                 :: str "color: #fff; metalness: 0.5" ++ [QUOTE])
                ++ 62 :: str "</a-box  >")
     = transform (str "<a-box material=" ++ QUOTE
                  :: str "color: #fff; metalness: 0.5" ++ [QUOTE])
       ++ 62 :: transform (str "</a-box  >").
Proof.
  split; [vm_compute; reflexivity|].
  apply (transform_splits_at_foreign_char 62); vm_compute; reflexivity.
Defined.

(** ** One block at a time *)

Lemma remove_run_rules p s :
  remove p s
  = run_rules [(leading p, []); (trailing p, []); (bare p, [])] s.
Proof.
  rewrite remove_forms. unfold run_rules. cbn [fold_left fst snd].
  reflexivity.
Qed.

Lemma block_rules_ok p :
  forallb rule_ok [(leading p, []); (trailing p, []); (bare p, [])] = true.
Proof. destruct p; vm_compute; reflexivity. Qed.

(** X4.  One block of three substitutions leaves a text as it is exactly
    when the text has no token of the block's property, and otherwise
    returns a strictly shorter text. *)
Theorem remove_fixed_iff (p : property) (x : text) :
  (remove p x = x <-> occurs (bare p) x = false)
  /\ (remove p x = x \/ (List.length (remove p x) < List.length x)%nat).
Proof.
  assert (F : remove p x = x <-> occurs (bare p) x = false).
  { split; [|apply remove_no_bare].
    rewrite remove_run_rules.
    rewrite (run_rules_fixed_iff _ (block_rules_ok p)).
    unfold no_rule_occurs. cbn [forallb fst snd].
    intros H. apply andb_prop in H as [_ H].
    apply andb_prop in H as [_ H]. apply andb_prop in H as [H _].
    apply negb_true_iff in H. exact H. }
  split; [exact F|].
  pose proof (run_rules_length_le _ (block_rules_ok p) x) as L.
  rewrite <- remove_run_rules in L.
  destruct (Nat.eq_dec (List.length (remove p x)) (List.length x)) as [E|N];
    [left|right; lia].
  rewrite remove_run_rules in *.
  apply (run_rules_same_length _ (block_rules_ok p)), E.
Qed.

(** X5.  No pattern of the twelve removals matches across a double
    quote, so the removals work on each side of a double quote
    separately: each block does, and so do the four blocks together. *)
Theorem strip_splits_at_quote (a b : text) :
  (forall p, remove p (a ++ QUOTE :: b) = remove p a ++ QUOTE :: remove p b)
  /\ strip (a ++ QUOTE :: b) = strip a ++ QUOTE :: strip b.
Proof.
  split; [intros p; apply remove_split_quote|].
  rewrite (strip_is_strip_in_order (a ++ QUOTE :: b)),
    (strip_is_strip_in_order a), (strip_is_strip_in_order b).
  apply strip_in_order_split_quote.
Qed.

(** ** One block on a document *)

Lemma render_document_no_bare q :
  forall d, document_ok d = true ->
  forallb (fun es => negb (existsb (is_tok q) es)) d = true ->
  occurs (bare q) (render_document d) = false.
Proof.
  induction d as [|es d IH]; intros Hok Hno; [reflexivity|].
  unfold document_ok in *. cbn [forallb] in Hok, Hno.
  apply andb_prop in Hok as [Hes Hd]. apply andb_prop in Hno as [Hn Hnd].
  apply negb_true_iff in Hn.
  destruct d as [|es' d].
  - cbn [render_document]. apply join_no_bare; assumption.
  - rewrite render_document_cons.
    rewrite (occurs_split_at _ _ (bare_avoids_quote q) (bare_nonempty q)).
    rewrite (join_no_bare _ _ Hes Hn). apply IH; assumption.
Qed.

Lemma filter_keeps_document q (d : document) :
  forallb (fun es => negb (existsb (is_tok q) es))
          (List.map (filter (keeps q)) d) = true.
Proof.
  induction d as [|es d IH]; [reflexivity|].
  cbn [List.map forallb]. rewrite filter_keeps_no_tok. exact IH.
Qed.

(** X6.  On a well-formed document one block removes exactly the entries
    of its property, each with one separator, and keeps every other
    entry; its result has no token of that property, so running the
    block again changes nothing. *)
Theorem remove_on_document (q : property) (d : document) :
  document_ok d = true ->
  remove q (render_document d)
  = render_document (List.map (filter (keeps q)) d)
  /\ occurs (bare q) (remove q (render_document d)) = false
  /\ remove q (remove q (render_document d)) = remove q (render_document d).
Proof.
  intros Hok.
  assert (N : occurs (bare q) (remove q (render_document d)) = false).
  { rewrite (remove_document _ _ Hok).
    apply render_document_no_bare;
      [apply document_ok_filter, Hok|apply filter_keeps_document]. }
  split; [apply remove_document, Hok|].
  split; [exact N|apply remove_no_bare, N].
Qed.

Lemma remove_on_document_witness :
  remove Metalness (render_document sample_document)
  = render_document (List.map (filter (keeps Metalness)) sample_document)
  /\ occurs (bare Metalness)
            (remove Metalness (render_document sample_document)) = false
  /\ remove Metalness (remove Metalness (render_document sample_document))
     = remove Metalness (render_document sample_document).
Proof.
  apply (remove_on_document Metalness sample_document).
  vm_compute. reflexivity.
Defined.

(** ** Runs of spaces *)

Lemma collapse_spaces_run2 (a t : text) :
  collapse_spaces (a ++ SPACE :: SPACE :: t)
  = collapse_spaces (a ++ SPACE :: t).
Proof.
  induction a as [a IH] using text_length_ind.
  destruct a as [|x [|y a]].
  - cbn [app]. rewrite collapse_spaces_cons2. reflexivity.
  - cbn [app]. rewrite !(collapse_spaces_cons2 x SPACE).
    rewrite (collapse_spaces_cons2 SPACE SPACE). reflexivity.
  - cbn [app]. rewrite !(collapse_spaces_cons2 x y).
    change (y :: a ++ ?s) with ((y :: a) ++ s).
    rewrite (IH (y :: a)) by (simpl; lia). reflexivity.
Qed.

Lemma collapse_spaces_repeat n (a b : text) :
  collapse_spaces (a ++ repeat SPACE (S n) ++ b)
  = collapse_spaces (a ++ SPACE :: b).
Proof.
  induction n as [|n IH]; [reflexivity|].
  change (repeat SPACE (S (S n)) ++ b)
    with (SPACE :: SPACE :: repeat SPACE n ++ b).
  rewrite collapse_spaces_run2. exact IH.
Qed.

Lemma clean_up_repeat n (a b : text) :
  clean_up (a ++ repeat SPACE (S n) ++ b) = clean_up (a ++ SPACE :: b).
Proof. rewrite !clean_up_spec, collapse_spaces_repeat. reflexivity. Qed.

(** X7.  For the clean-up a run of spaces counts as one space, whatever
    stands around it; so a run that is not next to another space, and
    not between a semicolon and a double quote, comes out as exactly one
    space. *)
Theorem clean_up_space_run (n : nat) (a b : text) :
  clean_up (a ++ repeat SPACE (S n) ++ b) = clean_up (a ++ SPACE :: b)
  /\ (ends_with SPACE a = false -> starts_with SPACE b = false ->
      ends_with SEMI a && starts_with QUOTE b = false ->
      clean_up (a ++ repeat SPACE (S n) ++ b)
      = clean_up a ++ SPACE :: clean_up b).
Proof.
  split; [apply clean_up_repeat|].
  intros Ha Hb Hq. rewrite clean_up_repeat.
  apply clean_up_keeps_single_space; assumption.
Qed.

Lemma clean_up_space_run_witness :
  clean_up (str "<a-box" ++ repeat SPACE 4 ++ str "position=")
  = clean_up (str "<a-box" ++ SPACE :: str "position=")
  /\ clean_up (str "<a-box" ++ repeat SPACE 4 ++ str "position=")
     = clean_up (str "<a-box") ++ SPACE :: clean_up (str "position=").
Proof.
  destruct (clean_up_space_run 3 (str "<a-box") (str "position=")) as [E H].
  split; [exact E|]. apply H; vm_compute; reflexivity.
Defined.

(** X8.  A semicolon, any run of one or more spaces and a double quote
    come out as the double quote alone; the clean-up then goes on
    separately on each side. *)
Theorem clean_up_semi_spaces_quote (n : nat) (a b : text) :
  clean_up (a ++ SEMI :: repeat SPACE (S n) ++ QUOTE :: b)
  = clean_up a ++ QUOTE :: clean_up b.
Proof.
  change (a ++ SEMI :: repeat SPACE (S n) ++ QUOTE :: b)
    with (a ++ [SEMI] ++ repeat SPACE (S n) ++ QUOTE :: b).
  rewrite app_assoc.
  rewrite (clean_up_repeat n (a ++ [SEMI]) (QUOTE :: b)).
  rewrite <- app_assoc. cbn [app].
  rewrite !clean_up_spec.
  rewrite (collapse_spaces_split_at SEMI) by discriminate.
  rewrite (collapse_spaces_cons2 SPACE QUOTE).
  change (SPACE =? SPACE) with true. change (QUOTE =? SPACE) with false.
  cbv iota.
  rewrite (collapse_spaces_cons_other QUOTE) by discriminate.
  rewrite <- !sub_semi_quote.
  unfold semi_quote at 1.
  rewrite (sub_scan_lit SEMI SEMI _ [QUOTE]) by reflexivity.
  fold semi_quote. f_equal.
  rewrite (sub_match semi_quote [QUOTE] _ (collapse_spaces b));
    [reflexivity|discriminate|].
  rewrite semi_quote_match. reflexivity.
Qed.

(** ** A token behind a separator *)

Lemma bare_head q (P : char -> bool) :
  starts_in P (prefix q) = false ->
  exists c re, bare q = Lit c :: re /\ P c = false.
Proof.
  intros H. destruct q; eexists _, _; (split; [reflexivity|exact H]).
Qed.

(** No match starts at a character of a class that the first literal is
    not in. *)
Lemma occurs_skip_class (P : char -> bool) c re (v s : text) :
  forallb P v = true -> P c = false ->
  occurs (Lit c :: re) (v ++ s) = occurs (Lit c :: re) s.
Proof.
  intros Hv Hc. induction v as [|x v IH]; [reflexivity|].
  cbn [forallb] in Hv. apply andb_prop in Hv as [Hx Hv].
  cbn [app]. rewrite occurs_cons_nomatch; [apply IH, Hv|].
  rewrite match_here_lit.
  destruct (x =? c) eqn:E; [|reflexivity].
  apply N.eqb_eq in E. subst x. rewrite Hx in Hc. discriminate.
Qed.

Lemma bare_not_in_prefix q p (s : text) :
  property_eqb q p = false ->
  occurs (bare q) (SPACE :: prefix p ++ s) = occurs (bare q) s.
Proof.
  intros H.
  destruct q, p; try discriminate H; cbv [prefix str];
    cbn [app List.map list_ascii_of_string];
    repeat (rewrite occurs_cons_nomatch by reflexivity); reflexivity.
Qed.

Lemma remove_other_leading_token q p (v pre post : text) :
  property_eqb q p = false -> starts_in (cls p) (prefix q) = false ->
  forallb (cls p) v = true ->
  occurs (bare q) pre = false -> occurs (bare q) post = false ->
  remove q (pre ++ separator ++ prefix p ++ v ++ post)
  = pre ++ separator ++ prefix p ++ v ++ post.
Proof.
  intros Hqp Hq Hv Hpre Hpost. apply remove_no_bare.
  change (separator ++ ?s) with (SEMI :: SPACE :: s).
  rewrite (occurs_split_at _ _ (bare_avoids_semi q) (bare_nonempty q)).
  rewrite Hpre, (bare_not_in_prefix _ _ _ Hqp). cbn [orb].
  destruct (bare_head q _ Hq) as (c & re & E & Hc). rewrite E in *.
  rewrite (occurs_skip_class _ _ _ _ _ Hv Hc). exact Hpost.
Qed.

Lemma remove_leading_token p (v pre post : text) :
  v <> [] -> forallb (cls p) v = true -> starts_in (cls p) post = false ->
  occurs (bare p) pre = false -> occurs (bare p) post = false ->
  occurs (bare p) (pre ++ post) = false ->
  remove p (pre ++ separator ++ prefix p ++ v ++ post) = pre ++ post.
Proof.
  intros Hne Hv Hs Hpre Hpost Hall.
  rewrite remove_forms.
  change (separator ++ ?s) with (SEMI :: SPACE :: s).
  rewrite leading_cons,
    (sub_scan_lit SEMI SEMI _ [] (leading_tail_avoids_semi p)).
  rewrite <- leading_cons.
  rewrite (sub_no_occurrence _ _ _ (no_bare_no_leading _ _ Hpre)).
  rewrite (sub_match (leading p) [] _ post); [|apply leading_nonempty|].
  - cbn [app].
    rewrite (sub_no_occurrence _ _ _ (no_bare_no_leading _ _ Hpost)).
    rewrite (sub_no_occurrence _ _ _ (no_bare_no_trailing _ _ Hall)).
    apply sub_no_occurrence, Hall.
  - rewrite leading_cons, !match_here_lit, !N.eqb_refl.
    apply bare_match_token; assumption.
Qed.

(** X9.  A token of any of the four properties with a separator in front
    of it, in a text that is otherwise clean and does not go on with a
    character of the value, is removed with its separator and nothing
    else changes. *)
Theorem leading_token_removed (p : property) (v pre post : text) :
  entry_ok (Tok p v) = true -> clean (pre ++ post) = true ->
  starts_in (cls p) post = false ->
  transform (pre ++ separator ++ render (Tok p v) ++ post) = pre ++ post.
Proof.
  intros Hok Hclean Hs.
  apply entry_ok_tok in Hok as [Hne Hv].
  destruct (clean_parts _ Hclean pre post eq_refl) as [Hb1 Hb2].
  pose proof (proj1 (clean_spec _) Hclean) as (Hb & Hd & Hq).
  assert (R : remove p (pre ++ separator ++ prefix p ++ v ++ post)
              = pre ++ post)
    by (apply remove_leading_token; auto).
  assert (O : forall q, property_eqb q p = false ->
                starts_in (cls p) (prefix q) = false ->
                remove q (pre ++ separator ++ prefix p ++ v ++ post)
                = pre ++ separator ++ prefix p ++ v ++ post)
    by (intros q H1 H2; apply remove_other_leading_token; auto).
  unfold transform. rewrite strip_is_strip_in_order.
  unfold strip_in_order, all_properties, render. cbn [fold_left].
  rewrite <- app_assoc.
  assert (S : remove EmissiveIntensity
                (remove Emissive
                   (remove Roughness
                      (remove Metalness
                         (pre ++ separator ++ prefix p ++ v ++ post))))
              = pre ++ post).
  { destruct p.
    - rewrite R, !(remove_no_bare _ _ (Hb _)). reflexivity.
    - rewrite (O Metalness) by reflexivity.
      rewrite R, !(remove_no_bare _ _ (Hb _)). reflexivity.
    - rewrite (O Metalness), (O Roughness) by reflexivity.
      rewrite R, !(remove_no_bare _ _ (Hb _)). reflexivity.
    - rewrite (O Metalness), (O Roughness), (O Emissive) by reflexivity.
      exact R. }
  rewrite S. apply clean_up_no_occurrence; assumption.
Qed.

Lemma leading_token_removed_witness :
  transform (str "color: red"
             ++ separator ++ render (Tok Emissive (str "ff00aa"))
             ++ str "; opacity: 0.5")
  = str "color: red" ++ str "; opacity: 0.5".
Proof.
  apply (leading_token_removed Emissive (str "ff00aa") (str "color: red")
           (str "; opacity: 0.5")); vm_compute; reflexivity.
Defined.

(** ** Double quotes are kept *)

Lemma block_rules_keep_quote p :
  forallb (rule_keeps QUOTE)
          [(leading p, []); (trailing p, []); (bare p, [])] = true.
Proof. destruct p; vm_compute; reflexivity. Qed.

Lemma strip_in_order_count_quote order :
  forall s, count_occ N.eq_dec (strip_in_order order s) QUOTE
            = count_occ N.eq_dec s QUOTE.
Proof.
  unfold strip_in_order.
  induction order as [|p order IH]; intros s; [reflexivity|].
  cbn [fold_left]. rewrite IH, remove_run_rules.
  apply run_rules_count_occ, block_rules_keep_quote.
Qed.

Lemma sub_semi_quote_count_quote :
  forall s : text,
    count_occ N.eq_dec (sub semi_quote [QUOTE] s) QUOTE
    = count_occ N.eq_dec s QUOTE.
Proof.
  intros s. induction s as [s IH] using text_length_ind.
  destruct s as [|c1 s1]; [reflexivity|].
  rewrite sub_cons by discriminate. rewrite semi_quote_match.
  assert (K : count_occ N.eq_dec (c1 :: sub semi_quote [QUOTE] s1) QUOTE
              = count_occ N.eq_dec (c1 :: s1) QUOTE).
  { destruct (N.eq_dec c1 QUOTE) as [->|Hx].
    - rewrite !count_occ_cons_eq by reflexivity. f_equal.
      apply IH. simpl; lia.
    - rewrite !count_occ_cons_neq by assumption. apply IH. simpl; lia. }
  destruct s1 as [|c2 [|c3 s3]]; try exact K.
  destruct ((c1 =? SEMI) && (c2 =? SPACE) && (c3 =? QUOTE)) eqn:B;
    [|exact K].
  apply andb_prop in B as [B B3]. apply andb_prop in B as [B1 B2].
  apply N.eqb_eq in B1, B2, B3. subst c1 c2 c3.
  cbn [app]. rewrite count_occ_cons_eq by reflexivity.
  transitivity (S (count_occ N.eq_dec s3 QUOTE));
    [f_equal; apply IH; simpl; lia|].
  symmetry.
  rewrite count_occ_cons_neq by discriminate.
  rewrite count_occ_cons_neq by discriminate.
  apply count_occ_cons_eq. reflexivity.
Qed.

(** X10.  The transform keeps every double quote: the output has as many
    double quotes as the input, although the last pattern consumes a
    double quote, which its replacement gives back. *)
Theorem transform_keeps_quotes (x : text) :
  count_occ N.eq_dec (transform x) QUOTE = count_occ N.eq_dec x QUOTE.
Proof.
  unfold transform, clean_up.
  rewrite sub_semi_quote_count_quote.
  rewrite (sub_count_occ QUOTE double_spaces [SPACE]);
    [|reflexivity|discriminate|reflexivity].
  rewrite strip_is_strip_in_order. apply strip_in_order_count_quote.
Qed.

(** ** Texts that lack a character of the names *)

Lemma in_prefix_bare p c : In c (prefix p) -> In (Lit c) (bare p).
Proof.
  intros H. unfold bare. apply in_or_app. left.
  unfold lits. apply in_map, H.
Qed.

Lemma colon_in_prefix p : In 58 (prefix p).
Proof.
  destruct p; cbv [prefix str]; cbn [List.map list_ascii_of_string In];
    repeat (first [left; reflexivity|right]).
Qed.

(** X11.  A block needs every character of its name prefix: a text
    that lacks one of them is left as it is by the block.  All four
    need a colon, so the removals change no text without a colon and
    the transform of such a text is its clean-up. *)
Theorem strip_needs_name_chars (x : text) :
  (forall p c, In c (prefix p) -> ~ In c x -> remove p x = x)
  /\ (~ In 58 x -> strip x = x /\ transform x = clean_up x).
Proof.
  assert (H : forall p c, In c (prefix p) -> ~ In c x -> remove p x = x).
  { intros p c Hc Hx. apply remove_no_bare.
    apply (occurs_lit_absent c); [apply in_prefix_bare, Hc|exact Hx]. }
  split; [exact H|]. intros Hx.
  assert (S : strip x = x).
  { rewrite strip_is_strip_in_order.
    unfold strip_in_order, all_properties. cbn [fold_left].
    rewrite (H Metalness 58 (colon_in_prefix _) Hx).
    rewrite (H Roughness 58 (colon_in_prefix _) Hx).
    rewrite (H Emissive 58 (colon_in_prefix _) Hx).
    apply (H EmissiveIntensity 58 (colon_in_prefix _) Hx). }
  split; [exact S|]. unfold transform. rewrite S. reflexivity.
Qed.

Lemma strip_needs_name_chars_witness :
  strip (str "<a-scene>  </a-scene>") = str "<a-scene>  </a-scene>"
  /\ transform (str "<a-scene>  </a-scene>")
     = clean_up (str "<a-scene>  </a-scene>").
Proof.
  apply (proj2 (strip_needs_name_chars (str "<a-scene>  </a-scene>"))).
  intros H. vm_compute in H.
  repeat (destruct H as [H|H]; [discriminate H|]). exact H.
Defined.

(** ** The codec and the newlines of the file *)

Lemma divmod_unique a b q r :
  r < b -> a = b * q + r -> a / b = q /\ a mod b = r.
Proof.
  intros Hr Ha. split; symmetry.
  - apply (N.div_unique a b q r); assumption.
  - apply (N.mod_unique a b q r); assumption.
Qed.

Lemma utf8_decode_cons b0 r0 :
  utf8_decode (b0 :: r0)
  = if b0 <? 128 then option_map (cons b0) (utf8_decode r0)
    else if (194 <=? b0) && (b0 <=? 223) then
      match r0 with
      | b1 :: r1 =>
          if continuation b1
          then option_map (cons ((b0 - 192) * 64 + (b1 - 128)))
                          (utf8_decode r1)
          else None
      | [] => None
      end
    else if (224 <=? b0) && (b0 <=? 239) then
      match r0 with
      | b1 :: b2 :: r2 =>
          let c := (b0 - 224) * 4096 + (b1 - 128) * 64 + (b2 - 128) in
          if continuation b1 && continuation b2
             && (2048 <=? c) && scalar c
          then option_map (cons c) (utf8_decode r2)
          else None
      | _ => None
      end
    else if (240 <=? b0) && (b0 <=? 244) then
      match r0 with
      | b1 :: b2 :: b3 :: r3 =>
          let c := (b0 - 240) * 262144 + (b1 - 128) * 4096
                   + (b2 - 128) * 64 + (b3 - 128) in
          if continuation b1 && continuation b2 && continuation b3
             && (65536 <=? c) && (c <=? 1114111)
          then option_map (cons c) (utf8_decode r3)
          else None
      | _ => None
      end
    else None.
Proof. reflexivity. Qed.

Lemma utf8_encode_cons c s :
  utf8_encode (c :: s)
  = match utf8_encode_char c, utf8_encode s with
    | Some a, Some b => Some (a ++ b)
    | _, _ => None
    end.
Proof. reflexivity. Qed.

Lemma utf8_encode_char_two b0 b1 :
  (194 <=? b0) && (b0 <=? 223) = true -> continuation b1 = true ->
  utf8_encode_char ((b0 - 192) * 64 + (b1 - 128)) = Some [b0; b1].
Proof.
  unfold continuation. intros H0 H1. to_props.
  set (c := (b0 - 192) * 64 + (b1 - 128)).
  destruct (divmod_unique c 64 (b0 - 192) (b1 - 128)) as [Hq Hr];
    [lia|unfold c; lia|].
  unfold utf8_encode_char.
  replace (c <? 128) with false by (symmetry; apply N.ltb_ge; unfold c; lia).
  replace (c <? 2048) with true by (symmetry; apply N.ltb_lt; unfold c; lia).
  rewrite Hq, Hr. repeat f_equal; lia.
Qed.

Lemma utf8_encode_char_three b0 b1 b2 :
  (224 <=? b0) && (b0 <=? 239) = true ->
  continuation b1 = true -> continuation b2 = true ->
  (2048 <=? (b0 - 224) * 4096 + (b1 - 128) * 64 + (b2 - 128)) = true ->
  scalar ((b0 - 224) * 4096 + (b1 - 128) * 64 + (b2 - 128)) = true ->
  utf8_encode_char ((b0 - 224) * 4096 + (b1 - 128) * 64 + (b2 - 128))
  = Some [b0; b1; b2].
Proof.
  unfold continuation. intros H0 H1 H2.
  set (c := (b0 - 224) * 4096 + (b1 - 128) * 64 + (b2 - 128)).
  intros Hc Hs. to_props.
  destruct (divmod_unique c 4096 (b0 - 224) ((b1 - 128) * 64 + (b2 - 128)))
    as [Hq1 _]; [lia|unfold c; lia|].
  destruct (divmod_unique c 64 ((b0 - 224) * 64 + (b1 - 128)) (b2 - 128))
    as [Hq2 Hr2]; [lia|unfold c; lia|].
  destruct (divmod_unique ((b0 - 224) * 64 + (b1 - 128)) 64
              (b0 - 224) (b1 - 128)) as [_ Hr3]; [lia|lia|].
  unfold utf8_encode_char.
  replace (c <? 128) with false by (symmetry; apply N.ltb_ge; lia).
  replace (c <? 2048) with false by (symmetry; apply N.ltb_ge; lia).
  replace (c <? 65536) with true by (symmetry; apply N.ltb_lt; unfold c; lia).
  rewrite Hs, Hq1, Hq2, Hr2, Hr3. repeat f_equal; lia.
Qed.

Lemma utf8_encode_char_four b0 b1 b2 b3 :
  (240 <=? b0) && (b0 <=? 244) = true ->
  continuation b1 = true -> continuation b2 = true ->
  continuation b3 = true ->
  (65536 <=? (b0 - 240) * 262144 + (b1 - 128) * 4096
              + (b2 - 128) * 64 + (b3 - 128)) = true ->
  ((b0 - 240) * 262144 + (b1 - 128) * 4096
   + (b2 - 128) * 64 + (b3 - 128) <=? 1114111) = true ->
  utf8_encode_char ((b0 - 240) * 262144 + (b1 - 128) * 4096
                    + (b2 - 128) * 64 + (b3 - 128))
  = Some [b0; b1; b2; b3].
Proof.
  unfold continuation. intros H0 H1 H2 H3.
  set (c := (b0 - 240) * 262144 + (b1 - 128) * 4096
            + (b2 - 128) * 64 + (b3 - 128)).
  intros Hc Hm. to_props.
  destruct (divmod_unique c 262144 (b0 - 240)
              ((b1 - 128) * 4096 + (b2 - 128) * 64 + (b3 - 128)))
    as [Hq1 _]; [lia|unfold c; lia|].
  destruct (divmod_unique c 4096 ((b0 - 240) * 64 + (b1 - 128))
              ((b2 - 128) * 64 + (b3 - 128)))
    as [Hq2 _]; [lia|unfold c; lia|].
  destruct (divmod_unique ((b0 - 240) * 64 + (b1 - 128)) 64
              (b0 - 240) (b1 - 128)) as [_ Hr2]; [lia|lia|].
  destruct (divmod_unique c 64
              ((b0 - 240) * 4096 + (b1 - 128) * 64 + (b2 - 128)) (b3 - 128))
    as [Hq3 Hr3]; [lia|unfold c; lia|].
  destruct (divmod_unique ((b0 - 240) * 4096 + (b1 - 128) * 64 + (b2 - 128))
              64 ((b0 - 240) * 64 + (b1 - 128)) (b2 - 128))
    as [_ Hr4]; [lia|lia|].
  unfold utf8_encode_char.
  replace (c <? 128) with false by (symmetry; apply N.ltb_ge; lia).
  replace (c <? 2048) with false by (symmetry; apply N.ltb_ge; lia).
  replace (c <? 65536) with false by (symmetry; apply N.ltb_ge; lia).
  replace (c <=? 1114111) with true by (symmetry; apply N.leb_le; lia).
  rewrite Hq1, Hq2, Hr2, Hq3, Hr3, Hr4. repeat f_equal; lia.
Qed.

(** Encoding what was decoded gives the bytes back. *)
Lemma utf8_encode_decode :
  forall (bs : list byte) (t : text),
    utf8_decode bs = Some t -> utf8_encode t = Some bs.
Proof.
  assert (G : forall bs : text, forall t : text,
               utf8_decode bs = Some t -> utf8_encode t = Some bs);
    [|exact G].
  intros bs. induction bs as [bs IH] using text_length_ind. intros t.
  destruct bs as [|b0 r0]; [intros [= <-]; reflexivity|].
  rewrite utf8_decode_cons.
  destruct (b0 <? 128) eqn:H0.
  { destruct (utf8_decode r0) as [t0|] eqn:D; [|discriminate].
    intros [= <-]. rewrite utf8_encode_cons, (IH r0 (Nat.lt_succ_diag_r _) _ D).
    unfold utf8_encode_char. rewrite H0. reflexivity. }
  destruct ((194 <=? b0) && (b0 <=? 223)) eqn:H1.
  { destruct r0 as [|b1 r1]; [discriminate|].
    destruct (continuation b1) eqn:C1; [|discriminate].
    destruct (utf8_decode r1) as [t0|] eqn:D; [|discriminate].
    intros [= <-]. rewrite utf8_encode_cons, (IH r1) with (t := t0);
      [|simpl; lia|exact D].
    rewrite (utf8_encode_char_two _ _ H1 C1). reflexivity. }
  destruct ((224 <=? b0) && (b0 <=? 239)) eqn:H2.
  { destruct r0 as [|b1 [|b2 r2]]; try discriminate.
    cbv zeta.
    destruct (continuation b1 && continuation b2 && _ && _) eqn:C;
      [|discriminate].
    destruct (utf8_decode r2) as [t0|] eqn:D; [|discriminate].
    intros [= <-]. rewrite utf8_encode_cons, (IH r2) with (t := t0);
      [|simpl; lia|exact D].
    apply andb_prop in C as [C Cs]. apply andb_prop in C as [C Cc].
    apply andb_prop in C as [C1 C2].
    rewrite (utf8_encode_char_three _ _ _ H2 C1 C2 Cc Cs). reflexivity. }
  destruct ((240 <=? b0) && (b0 <=? 244)) eqn:H3; [|discriminate].
  destruct r0 as [|b1 [|b2 [|b3 r3]]]; try discriminate.
  cbv zeta.
  destruct (continuation b1 && continuation b2 && continuation b3 && _ && _)
    eqn:C; [|discriminate].
  destruct (utf8_decode r3) as [t0|] eqn:D; [|discriminate].
  intros [= <-]. rewrite utf8_encode_cons, (IH r3) with (t := t0);
    [|simpl; lia|exact D].
  apply andb_prop in C as [C Cm]. apply andb_prop in C as [C Cc].
  apply andb_prop in C as [C C3]. apply andb_prop in C as [C1 C2].
  rewrite (utf8_encode_char_four _ _ _ _ H3 C1 C2 C3 Cc Cm). reflexivity.
Qed.

(** What can be encoded: the scalar values. *)
Lemma utf8_encode_char_scalar c :
  utf8_encode_char c <> None <-> scalar c = true.
Proof.
  unfold utf8_encode_char, scalar.
  destruct (c <? 128) eqn:H1, (c <? 2048) eqn:H2, (c <? 65536) eqn:H3,
    (c <=? 1114111) eqn:H4, (c <? 55296) eqn:H5, (57343 <? c) eqn:H6;
    cbn [orb andb]; to_props; try lia;
    split; intros; solve [reflexivity|congruence|discriminate].
Qed.

Lemma utf8_encode_scalar s :
  utf8_encode s <> None <-> forallb scalar s = true.
Proof.
  induction s as [|c s IH].
  - split; [intros _; reflexivity|intros _; discriminate].
  - rewrite utf8_encode_cons. cbn [forallb].
    rewrite andb_true_iff, <- IH, <- utf8_encode_char_scalar.
    destruct (utf8_encode_char c), (utf8_encode s); split; intros H;
      try (split; congruence); try discriminate; destruct H; congruence.
Qed.

Lemma utf8_decode_scalar bs t :
  utf8_decode bs = Some t -> forallb scalar t = true.
Proof.
  intros H. apply utf8_encode_scalar.
  rewrite (utf8_encode_decode _ _ H). discriminate.
Qed.

Lemma universal_newlines_cons c s :
  universal_newlines (c :: s)
  = if c =? CR then
      match s with
      | c' :: s'' =>
          if c' =? NEWLINE then NEWLINE :: universal_newlines s''
          else NEWLINE :: universal_newlines s
      | [] => [NEWLINE]
      end
    else c :: universal_newlines s.
Proof. reflexivity. Qed.

(** Without a carriage return the read changes nothing. *)
Lemma universal_newlines_no_cr s :
  existsb (N.eqb CR) s = false -> universal_newlines s = s.
Proof.
  induction s as [|c s IH]; [reflexivity|].
  cbn [existsb]. intros H. apply orb_false_iff in H as [Hc Hs].
  rewrite universal_newlines_cons, (N.eqb_sym c CR), Hc, (IH Hs).
  reflexivity.
Qed.

(** After the read no carriage return is left. *)
Lemma universal_newlines_cr_free :
  forall s : text, existsb (N.eqb CR) (universal_newlines s) = false.
Proof.
  intros s. induction s as [s IH] using text_length_ind.
  destruct s as [|c s]; [reflexivity|].
  rewrite universal_newlines_cons.
  destruct (c =? CR) eqn:Hc.
  - destruct s as [|c' s]; [reflexivity|].
    destruct (c' =? NEWLINE); cbn [existsb];
      rewrite IH by (simpl; lia); reflexivity.
  - cbn [existsb]. rewrite (N.eqb_sym CR c), Hc.
    apply IH. simpl; lia.
Qed.

Lemma universal_newlines_scalar :
  forall s : text,
    forallb scalar s = true -> forallb scalar (universal_newlines s) = true.
Proof.
  intros s. induction s as [s IH] using text_length_ind. intros H.
  destruct s as [|c s]; [reflexivity|].
  cbn [forallb] in H. apply andb_prop in H as [Hc Hs].
  rewrite universal_newlines_cons.
  destruct (c =? CR).
  - destruct s as [|c' s]; [reflexivity|].
    cbn [forallb] in Hs. apply andb_prop in Hs as [Hc' Hs'].
    destruct (c' =? NEWLINE); cbn [forallb]; rewrite IH;
      try reflexivity; try (simpl; lia); try assumption.
    cbn [forallb]. rewrite Hc', Hs'. reflexivity.
  - cbn [forallb]. rewrite Hc. apply IH; [simpl; lia|assumption].
Qed.

Lemma write_newlines_posix s : write_newlines Posix s = s.
Proof.
  unfold write_newlines. induction s as [|c s IH]; [reflexivity|].
  cbn [flat_map]. rewrite IH. destruct (c =? NEWLINE) eqn:E.
  - apply N.eqb_eq in E. subst c. reflexivity.
  - reflexivity.
Qed.

Lemma write_newlines_scalar p s :
  forallb scalar s = true -> forallb scalar (write_newlines p s) = true.
Proof.
  unfold write_newlines. induction s as [|c s IH]; [reflexivity|].
  cbn [forallb flat_map]. intros H. apply andb_prop in H as [Hc Hs].
  rewrite forallb_app, (IH Hs), andb_true_r.
  destruct (c =? NEWLINE).
  - destruct p; reflexivity.
  - cbn [forallb]. rewrite Hc. reflexivity.
Qed.

Lemma transform_subseq x : subseq (transform x) x.
Proof.
  unfold transform.
  eapply subseq_trans; [apply clean_up_subseq|apply strip_subseq].
Qed.

Lemma subseq_forallb (P : char -> bool) a b :
  subseq a b -> forallb P b = true -> forallb P a = true.
Proof.
  induction 1 as [|x s t H IH|x s t H IH]; cbn [forallb]; intros Hb.
  - reflexivity.
  - apply andb_prop in Hb as [_ Hb]. auto.
  - apply andb_prop in Hb as [Hx Hb]. rewrite Hx. cbn [andb]. auto.
Qed.

(** What the program hands to the write can always be encoded. *)
Lemma output_encodable (p : platform) (bs : list byte) (raw : text) :
  utf8_decode bs = Some raw ->
  utf8_encode (write_newlines p (transform (universal_newlines raw)))
  <> None.
Proof.
  intros D. apply utf8_encode_scalar, write_newlines_scalar.
  apply (subseq_forallb _ _ _ (transform_subseq _)).
  apply universal_newlines_scalar, (utf8_decode_scalar _ _ D).
Qed.

(** ** A run on a clean file *)



(** ** When a run succeeds *)



(** ** Running the transform again and again *)

Lemma iter_transform_clean n (x : text) :
  clean x = true -> Nat.iter n transform x = x.
Proof.
  intros H. induction n as [|n IH]; [reflexivity|].
  rewrite Nat.iter_succ, IH. apply transform_fixed_iff, H.
Qed.

(** X13.  Repeated runs come to rest: after at most as many runs of the
    transform as the text has characters the result is clean, and
    further runs leave it as it is. *)
Theorem transform_iterates_to_clean (x : text) :
  exists n, (n <= List.length x)%nat
            /\ clean (Nat.iter n transform x) = true
            /\ forall m, Nat.iter m transform (Nat.iter n transform x)
                         = Nat.iter n transform x.
Proof.
  induction x as [x IH] using text_length_ind.
  destruct (clean x) eqn:C.
  - exists 0%nat. change (Nat.iter 0 transform x) with x.
    split; [lia|]. split; [exact C|].
    intros m. apply iter_transform_clean, C.
  - assert (L : (List.length (transform x) < List.length x)%nat).
    { pose proof (run_rules_length_le _ rules_ok x) as L.
      rewrite <- transform_rules in L.
      destruct (Nat.eq_dec (List.length (transform x)) (List.length x))
        as [E|N]; [|lia].
      rewrite transform_rules in E.
      apply (run_rules_same_length _ rules_ok) in E.
      rewrite <- transform_rules in E.
      apply transform_fixed_iff in E. congruence. }
    destruct (IH _ L) as (n & Hn & Hc & Hm).
    exists (S n). rewrite Nat.iter_succ_r.
    split; [lia|]. split; [exact Hc|exact Hm].
Qed.
